(** * Snake game (python_game.py): the rules engine and its properties

    The development embeds the game-state part of [python_game.py]:
    the grid constants, the [Snake] class ([reset], [move],
    [check_collision], [change_direction], [eat_food]), [generate_food],
    the rounds of [game_loop], the choice of [game_over_screen], the outer
    loop of [main] and the rectangles of [draw_snake].  Fonts, the overlay,
    the grid lines and the clock are presentation and are left out.

    Modelling conventions.
    - Python integers are unbounded: coordinates, directions and the score
      are [Z].  A cell or a direction is the tuple [(x, y)], here [Z * Z].
    - [self.body] is a Python list, here [list Cell]; [insert(0, x)] is
      [cons], [pop()] is [removelast], [body[1:]] is [tl], and [x in l] is
      the boolean membership test [cell_in].
    - [self.body[0]] raises [IndexError] on an empty list: the methods that
      read it return [option], [None] standing for the exception.
    - The methods mutate [self]; here they take the state and return the
      new one.
    - [random.randint] is read from an explicit tape of raw integers. *)

From Stdlib Require Import ZArith List Bool Lia.
Import ListNotations.

Local Open Scope Z_scope.

(** ** Constants *)

Definition WINDOW_WIDTH : Z := 600.
Definition WINDOW_HEIGHT : Z := 400.
Definition GRID_SIZE : Z := 20.
(* Python's [//] on integers is floor division, as is [Z.div]. *)
Definition GRID_WIDTH : Z := WINDOW_WIDTH / GRID_SIZE.
Definition GRID_HEIGHT : Z := WINDOW_HEIGHT / GRID_SIZE.
Definition FPS : Z := 10.

Definition Cell : Type := (Z * Z)%type.

Definition UP : Z * Z := (0, -1).
Definition DOWN : Z * Z := (0, 1).
Definition LEFT : Z * Z := (-1, 0).
Definition RIGHT : Z * Z := (1, 0).

(** The four headings the game ever requests, as an enumeration; [vec]
    gives the tuple the source uses for each. *)
Inductive Direction : Type := Up | Down | Left | Right.

Definition vec (d : Direction) : Z * Z :=
  match d with
  | Up => UP
  | Down => DOWN
  | Left => LEFT
  | Right => RIGHT
  end.

(** ** Tuples and lists of tuples *)

(* [a == b] on two pairs of integers. *)
Definition cell_eqb (a b : Cell) : bool :=
  (fst a =? fst b) && (snd a =? snd b).

(* [c in l] on a list of pairs. *)
Definition cell_in (c : Cell) (l : list Cell) : bool :=
  existsb (cell_eqb c) l.

(* Componentwise sum and negation, used to state properties. *)
Definition vadd (a b : Z * Z) : Z * Z := (fst a + fst b, snd a + snd b).
Definition vneg (a : Z * Z) : Z * Z := (fst a * -1, snd a * -1).

(* The cell lies in [0, GRID_WIDTH) x [0, GRID_HEIGHT). *)
Definition in_grid (c : Cell) : Prop :=
  0 <= fst c < GRID_WIDTH /\ 0 <= snd c < GRID_HEIGHT.

(** ** class Snake *)

Module Snake.

Record t : Type := mk {
  body : list Cell;
  direction : Z * Z;
  grow : bool
}.

Definition reset : t :=
  {| body := [ (GRID_WIDTH / 2, GRID_HEIGHT / 2);
               (GRID_WIDTH / 2 - 1, GRID_HEIGHT / 2);
               (GRID_WIDTH / 2 - 2, GRID_HEIGHT / 2) ];
     direction := RIGHT;
     grow := false |}.

Definition move (self : t) : option t :=
  match body self with
  | [] => None
  | head :: _ =>
      let new_head :=
        (fst head + fst (direction self), snd head + snd (direction self)) in
      (* self.body.insert(0, new_head) *)
      let body1 := new_head :: body self in
      if negb (grow self)
      then Some {| body := removelast body1;
                   direction := direction self;
                   grow := grow self |}
      else Some {| body := body1;
                   direction := direction self;
                   grow := false |}
  end.

Definition check_collision (self : t) : option bool :=
  match body self with
  | [] => None
  | head :: _ =>
      if (fst head <? 0) || (fst head >=? GRID_WIDTH)
         || (snd head <? 0) || (snd head >=? GRID_HEIGHT)
      then Some true
      else if cell_in head (tl (body self))
      then Some true
      else Some false
  end.

Definition change_direction (new_direction : Z * Z) (self : t) : t :=
  if negb (cell_eqb (fst new_direction * -1, snd new_direction * -1)
                    (direction self))
  then {| body := body self;
          direction := new_direction;
          grow := grow self |}
  else self.

Definition eat_food (food_pos : Cell) (self : t) : option (bool * t) :=
  match body self with
  | [] => None
  | head :: _ =>
      if cell_eqb head food_pos
      then Some (true, {| body := body self;
                          direction := direction self;
                          grow := true |})
      else Some (false, self)
  end.

End Snake.

(** ** generate_food *)

(** [random.randint(a, b)] returns an integer [N] with [a <= N <= b].  The
    generator's state is an explicit tape of raw integers; one call reads
    one raw value [r] and returns [randint a b r].  Every value of the
    range is reached by some raw value ([randint_onto]). *)
Definition randint (a b r : Z) : Z := a + r mod (b - a + 1).

(** The [while True] loop reads two raw values per round and stops at the
    first cell not in [snake_body]; the result comes with the rest of the
    tape.  [None]: the loop has not stopped within the given tape. *)
Fixpoint generate_food (snake_body : list Cell) (tape : list Z)
  : option (Cell * list Z) :=
  match tape with
  | rx :: ry :: tape' =>
      let food_pos :=
        (randint 0 (GRID_WIDTH - 1) rx, randint 0 (GRID_HEIGHT - 1) ry) in
      if negb (cell_in food_pos snake_body)
      then Some (food_pos, tape')
      else generate_food snake_body tape'
  | _ => None
  end.

(** ** game_loop *)

Inductive Key : Type := K_UP | K_DOWN | K_LEFT | K_RIGHT | K_c | K_q | K_other.

Inductive Event : Type :=
  | QUIT
  | KEYDOWN (key : Key)
  | OtherEvent.

(** The game variables of [game_loop]. *)
Record Game : Type := mkGame {
  snake : Snake.t;
  food_pos : Cell;
  score : Z
}.

(** What one iteration of the [while running] loop comes to. *)
Inductive Outcome : Type :=
  | Quit                                   (* a QUIT event: return False *)
  | GameOver (g : Game) (tape : list Z)    (* game_over_screen(screen, score) *)
  | Continue (g : Game) (tape : list Z)    (* on to drawing and the next round *)
  | Crash                                  (* IndexError *)
  | Starved.                               (* generate_food still looping *)

(** The [for event in pygame.event.get()] loop; [None] is the
    [return False] of a QUIT event. *)
Fixpoint handle_events (events : list Event) (s : Snake.t) : option Snake.t :=
  match events with
  | [] => Some s
  | QUIT :: _ => None
  | KEYDOWN K_UP :: rest => handle_events rest (Snake.change_direction UP s)
  | KEYDOWN K_DOWN :: rest => handle_events rest (Snake.change_direction DOWN s)
  | KEYDOWN K_LEFT :: rest => handle_events rest (Snake.change_direction LEFT s)
  | KEYDOWN K_RIGHT :: rest => handle_events rest (Snake.change_direction RIGHT s)
  | _ :: rest => handle_events rest s
  end.

(** One iteration of the loop body, up to the drawing. *)
Definition frame (events : list Event) (g : Game) (tape : list Z) : Outcome :=
  match handle_events events (snake g) with
  | None => Quit
  | Some s0 =>
      match Snake.move s0 with
      | None => Crash
      | Some s1 =>
          match Snake.check_collision s1 with
          | None => Crash
          | Some true =>
              GameOver {| snake := s1; food_pos := food_pos g; score := score g |}
                       tape
          | Some false =>
              match Snake.eat_food (food_pos g) s1 with
              | None => Crash
              | Some (true, s2) =>
                  match generate_food (Snake.body s2) tape with
                  | None => Starved
                  | Some (food', tape') =>
                      Continue {| snake := s2;
                                  food_pos := food';
                                  score := score g + 1 |}
                               tape'
                  end
              | Some (false, s2) =>
                  Continue {| snake := s2;
                              food_pos := food_pos g;
                              score := score g |}
                           tape
              end
          end
      end
  end.

(** The game variables at the start of [game_loop]. *)
Definition game_start (tape : list Z) : option (Game * list Z) :=
  match generate_food (Snake.body Snake.reset) tape with
  | None => None
  | Some (food, tape') =>
      Some ({| snake := Snake.reset; food_pos := food; score := 0 |}, tape')
  end.

(** [n] calls of [move] in a row. *)
Fixpoint move_n (n : nat) (s : Snake.t) : option Snake.t :=
  match n with
  | O => Some s
  | S k =>
      match Snake.move s with
      | None => None
      | Some s' => move_n k s'
      end
  end.

(** ** game_over_screen, the rounds of game_loop, main *)

(** [pygame.event.get()] empties the event queue and returns what it held.
    The input of the program is the list of these batches, one per call, in
    the order of the calls. *)

(** The [for event in pygame.event.get()] loop of [game_over_screen];
    [Some b] is [return b], [None] is the end of the batch. *)
Fixpoint game_over_events (events : list Event) : option bool :=
  match events with
  | [] => None
  | QUIT :: _ => Some false
  | KEYDOWN K_c :: _ => Some true
  | KEYDOWN K_q :: _ => Some false
  | _ :: rest => game_over_events rest
  end.

(** The [while waiting] loop: one batch per round, until a batch decides.
    The result comes with the batches not yet read; [None]: still waiting
    when the given batches are used up.  [score] is only displayed. *)
Fixpoint game_over_screen (score : Z) (polls : list (list Event))
  : option (bool * list (list Event)) :=
  match polls with
  | [] => None
  | events :: rest =>
      match game_over_events events with
      | Some b => Some (b, rest)
      | None => game_over_screen score rest
      end
  end.

(** Rounds of the [while running] loop, one batch of events each, as long
    as they go on; the state after the last one. *)
Fixpoint play (polls : list (list Event)) (g : Game) (tape : list Z) : Outcome :=
  match polls with
  | [] => Continue g tape
  | events :: rest =>
      match frame events g tape with
      | Continue g' tape' => play rest g' tape'
      | o => o
      end
  end.

(** What a call of [game_loop] comes to. *)
Inductive LoopResult : Type :=
  | Returned (b : bool) (polls : list (list Event)) (tape : list Z)
  | Raised                (* IndexError *)
  | Hung                  (* generate_food still looping *)
  | Waiting.              (* the given batches are used up *)

Fixpoint rounds_loop (polls : list (list Event)) (g : Game) (tape : list Z)
  : LoopResult :=
  match polls with
  | [] => Waiting
  | events :: rest =>
      match frame events g tape with
      | Quit => Returned false rest tape
      | GameOver g' tape' =>
          (* play_again = game_over_screen(screen, score) *)
          match game_over_screen (score g') rest with
          | Some (true, rest') => Returned true rest' tape'
          | Some (false, rest') => Returned false rest' tape'
          | None => Waiting
          end
      | Continue g' tape' => rounds_loop rest g' tape'
      | Crash => Raised
      | Starved => Hung
      end
  end.

Definition game_loop (polls : list (list Event)) (tape : list Z) : LoopResult :=
  match game_start tape with
  | None => Hung
  | Some (g, tape') => rounds_loop polls g tape'
  end.

(** [main]: [while playing: playing = game_loop()], then the exit.  The
    result counts the sessions played before the exit.  Every session that
    returns has read a batch, so [S (length polls)] rounds of the outer
    loop are enough for any input ([main_loop_fuel]). *)
Inductive MainResult : Type :=
  | Exited (sessions : nat)
  | MainRaised
  | MainHung
  | MainWaiting.

Fixpoint main_loop (fuel : nat) (played : nat) (polls : list (list Event))
    (tape : list Z) : MainResult :=
  match fuel with
  | O => MainWaiting
  | S fuel' =>
      match game_loop polls tape with
      | Returned true polls' tape' => main_loop fuel' (S played) polls' tape'
      | Returned false _ _ => Exited (S played)
      | Raised => MainRaised
      | Hung => MainHung
      | Waiting => MainWaiting
      end
  end.

Definition main (polls : list (list Event)) (tape : list Z) : MainResult :=
  main_loop (S (length polls)) 0 polls tape.

(** ** draw_snake *)

Definition Color : Type := (Z * Z * Z)%type.
Definition BLACK : Color := (0, 0, 0).
Definition WHITE : Color := (255, 255, 255).
Definition RED : Color := (255, 0, 0).
Definition GREEN : Color := (0, 255, 0).
Definition DARK_GREEN : Color := (0, 200, 0).

(** A call [pygame.draw.rect(screen, color, (x, y, w, h), width)]; the
    width is 0 (a filled rectangle) when the call gives none. *)
Record RectCall : Type := mkRectCall {
  rc_color : Color;
  rc_x : Z;
  rc_y : Z;
  rc_w : Z;
  rc_h : Z;
  rc_width : Z
}.

(** The calls of [draw_snake], in order; [i] is the index that
    [enumerate] has reached. *)
Fixpoint draw_snake_from (i : nat) (snake_body : list Cell) : list RectCall :=
  match snake_body with
  | [] => []
  | segment :: rest =>
      let x := fst segment * GRID_SIZE in
      let y := snd segment * GRID_SIZE in
      let color := if Nat.eqb i 0 then DARK_GREEN else GREEN in
      mkRectCall color (x + 1) (y + 1) (GRID_SIZE - 2) (GRID_SIZE - 2) 0
        :: mkRectCall BLACK x y GRID_SIZE GRID_SIZE 1
        :: draw_snake_from (S i) rest
  end.

Definition draw_snake (snake_body : list Cell) : list RectCall :=
  draw_snake_from 0 snake_body.

(** ** Predicates of the properties *)

(** One of the four tuples [UP], [DOWN], [LEFT], [RIGHT]. *)
Definition is_heading (v : Z * Z) : Prop := exists d : Direction, v = vec d.

(** Every segment is one unit step away from the next one. *)
Fixpoint contiguous (l : list Cell) : Prop :=
  match l with
  | [] => True
  | a :: rest =>
      match rest with
      | [] => True
      | b :: _ => (exists d : Direction, a = vadd b (vec d)) /\ contiguous rest
      end
  end.

(** The direction is the step that leads from the second segment to the
    head. *)
Definition aligned (s : Snake.t) : Prop :=
  match Snake.body s with
  | head :: neck :: _ => head = vadd neck (Snake.direction s)
  | _ => True
  end.

(** A state in which [game_loop] starts a round: the state after
    [game_start] and any number of rounds that went on. *)
Definition reachable (g : Game) : Prop :=
  exists (tape0 : list Z) (g0 : Game) (tape1 : list Z)
         (polls : list (list Event)) (tape2 : list Z),
    game_start tape0 = Some (g0, tape1)
    /\ play polls g0 tape1 = Continue g tape2.

(** What every such state satisfies. *)
Record Inv (g : Game) : Prop := mkInv {
  inv_nodup : NoDup (Snake.body (snake g));
  inv_grid : Forall in_grid (Snake.body (snake g));
  inv_contiguous : contiguous (Snake.body (snake g));
  inv_heading : is_heading (Snake.direction (snake g));
  inv_aligned : aligned (snake g);
  inv_food_grid : in_grid (food_pos g);
  inv_food_free : ~ In (food_pos g) (Snake.body (snake g));
  inv_length :
    Z.of_nat (length (Snake.body (snake g)))
    + (if Snake.grow (snake g) then 1 else 0) = 3 + score g;
  inv_meal : Snake.grow (snake g) = true -> 1 <= score g;
  inv_score : 0 <= score g
}.

(** The window rectangle holds the rectangle of the call. *)
Definition in_window (c : RectCall) : Prop :=
  0 <= rc_x c /\ rc_x c + rc_w c <= WINDOW_WIDTH
  /\ 0 <= rc_y c /\ rc_y c + rc_h c <= WINDOW_HEIGHT.

(** The two rectangles have no pixel in common. *)
Definition disjoint_rects (a b : RectCall) : Prop :=
  rc_x a + rc_w a <= rc_x b \/ rc_x b + rc_w b <= rc_x a
  \/ rc_y a + rc_h a <= rc_y b \/ rc_y b + rc_h b <= rc_y a.

(** The cells of the grid, column by column. *)
Definition all_cells : list Cell :=
  list_prod (map Z.of_nat (seq 0 (Z.to_nat GRID_WIDTH)))
            (map Z.of_nat (seq 0 (Z.to_nat GRID_HEIGHT))).

(** The cells that the rounds of [generate_food] draw from a tape, one per
    pair of raw values, in order. *)
Fixpoint draws (tape : list Z) : list Cell :=
  match tape with
  | rx :: ry :: tape' =>
      (randint 0 (GRID_WIDTH - 1) rx, randint 0 (GRID_HEIGHT - 1) ry)
        :: draws tape'
  | _ => []
  end.

(** The heading opposite to [d], and the arrow key that requests [d]. *)
Definition opposite (d : Direction) : Direction :=
  match d with
  | Up => Down
  | Down => Up
  | Left => Right
  | Right => Left
  end.

Definition key_of (d : Direction) : Key :=
  match d with
  | Up => K_UP
  | Down => K_DOWN
  | Left => K_LEFT
  | Right => K_RIGHT
  end.

(** The tuple an arrow key requests in [game_loop]; the other keys request
    nothing. *)
Definition arrow (k : Key) : option (Z * Z) :=
  match k with
  | K_UP => Some UP
  | K_DOWN => Some DOWN
  | K_LEFT => Some LEFT
  | K_RIGHT => Some RIGHT
  | _ => None
  end.

(** ** States used in the examples *)

(** A snake of four segments turning in a 2 x 2 square: the cell ahead of
    the head is the cell of the tail. *)
Definition square_snake : Snake.t :=
  Snake.mk [(5, 5); (5, 6); (6, 6); (6, 5)] RIGHT false.

(** The state inside a round after the key presses Up, Left on a fresh
    snake, before the [move]: the body still points right, the direction is
    [LEFT]. *)
Definition turned_snake : Snake.t :=
  Snake.change_direction LEFT (Snake.change_direction UP Snake.reset).

(** A snake one step from the right wall, seven meals into the game. *)
Definition wall_game : Game :=
  {| snake := Snake.mk [(29, 10); (28, 10); (27, 10)] RIGHT false;
     food_pos := (3, 3);
     score := 7 |}.

(** The session of the end-to-end scenario: a fresh snake, the food placed
    at (16, 10), score 0. *)
Definition scenario_start : Game :=
  {| snake := Snake.reset; food_pos := (16, 10); score := 0 |}.

(** The state two rounds into a session: the tape puts the first food at
    (16, 10) and the second at (3, 4); the first round has no event and
    eats, the second turns up. *)
Definition two_rounds_tape : list Z := [16; 10; 3; 4].
Definition two_rounds_polls : list (list Event) := [[]; [KEYDOWN K_UP]].
Definition after_two_rounds : Game :=
  {| snake := Snake.mk [(16, 9); (16, 10); (15, 10); (14, 10)] UP false;
     food_pos := (3, 4);
     score := 1 |}.

(** * Properties *)

(** ** Tuples, membership and the grid *)

Lemma GRID_WIDTH_eq : GRID_WIDTH = 30.
Proof. reflexivity. Qed.

Lemma GRID_HEIGHT_eq : GRID_HEIGHT = 20.
Proof. reflexivity. Qed.

Lemma cell_eqb_eq (a b : Cell) : cell_eqb a b = true <-> a = b.
Proof.
  destruct a as [ax ay], b as [bx by_]; unfold cell_eqb; simpl.
  rewrite andb_true_iff, !Z.eqb_eq.
  split; [intros [-> ->]; reflexivity | intros E; inversion E; auto].
Qed.

Lemma cell_eqb_refl (a : Cell) : cell_eqb a a = true.
Proof. apply cell_eqb_eq; reflexivity. Qed.

Lemma cell_eqb_neq (a b : Cell) : cell_eqb a b = false <-> a <> b.
Proof.
  rewrite <- not_true_iff_false, cell_eqb_eq; tauto.
Qed.

Lemma cell_in_In (c : Cell) (l : list Cell) : cell_in c l = true <-> In c l.
Proof.
  unfold cell_in; rewrite existsb_exists; split.
  - intros [x [Hin Heq]]. apply cell_eqb_eq in Heq. now subst.
  - intros Hin. exists c. split; [assumption | apply cell_eqb_refl].
Qed.

Lemma cell_in_not_In (c : Cell) (l : list Cell) : cell_in c l = false <-> ~ In c l.
Proof.
  rewrite <- not_true_iff_false, cell_in_In; tauto.
Qed.

(** The wall test of [check_collision] is the negation of [in_grid]. *)
Lemma wall_test_false (c : Cell) :
  (fst c <? 0) || (fst c >=? GRID_WIDTH) || (snd c <? 0) || (snd c >=? GRID_HEIGHT)
  = false <-> in_grid c.
Proof.
  unfold in_grid. rewrite !orb_false_iff, !Z.ltb_ge, !Z.geb_leb, !Z.leb_gt. lia.
Qed.

Lemma wall_test_true (c : Cell) :
  (fst c <? 0) || (fst c >=? GRID_WIDTH) || (snd c <? 0) || (snd c >=? GRID_HEIGHT)
  = true <-> ~ in_grid c.
Proof.
  rewrite <- wall_test_false, not_false_iff_true. tauto.
Qed.

(** ** The equations of the methods on a non-empty body *)

Lemma move_cons (head : Cell) (rest : list Cell) (d : Z * Z) (g : bool) :
  Snake.move (Snake.mk (head :: rest) d g)
  = Some (Snake.mk (if g then vadd head d :: head :: rest
                    else vadd head d :: removelast (head :: rest))
                   d false).
Proof.
  unfold Snake.move, vadd; cbn [Snake.body Snake.direction Snake.grow].
  destruct g; reflexivity.
Qed.

Lemma move_empty (d : Z * Z) (g : bool) : Snake.move (Snake.mk [] d g) = None.
Proof. reflexivity. Qed.

Lemma length_removelast_cons {A : Type} (x : A) (l : list A) :
  length (removelast (x :: l)) = length l.
Proof.
  revert x; induction l as [|y l IH]; intros x; [reflexivity|].
  change (removelast (x :: y :: l)) with (x :: removelast (y :: l)).
  cbn [length]. f_equal. apply IH.
Qed.

Lemma check_collision_cons (head : Cell) (rest : list Cell) (d : Z * Z) (g : bool) :
  exists b, Snake.check_collision (Snake.mk (head :: rest) d g) = Some b
            /\ (b = true <-> ~ in_grid head \/ In head rest).
Proof.
  unfold Snake.check_collision; cbn [Snake.body tl].
  destruct ((fst head <? 0) || (fst head >=? GRID_WIDTH)
            || (snd head <? 0) || (snd head >=? GRID_HEIGHT)) eqn:W.
  - exists true. split; [reflexivity|].
    apply wall_test_true in W. tauto.
  - apply wall_test_false in W.
    destruct (cell_in head rest) eqn:M.
    + exists true. split; [reflexivity|]. apply cell_in_In in M. tauto.
    + exists false. split; [reflexivity|]. apply cell_in_not_In in M.
      split; [discriminate | tauto].
Qed.

(** ** move *)

(** C5. On a snake with at least one segment, [move] returns; the new head
    is the plain vector sum of the old head and the direction (no wrapping,
    no clamping: the coordinates are unbounded integers) and is put at the
    front; behind it comes the old body without its last element when
    [grow] was false, and the whole old body when [grow] was true; [grow]
    is false afterwards, the direction is untouched, and the body has at
    least one segment. *)
Theorem move_spec (head : Cell) (rest : list Cell) (d : Z * Z) (g : bool) :
  exists s',
    Snake.move (Snake.mk (head :: rest) d g) = Some s'
    /\ hd_error (Snake.body s') = Some (fst head + fst d, snd head + snd d)
    /\ Snake.body s'
       = (if g then (fst head + fst d, snd head + snd d) :: head :: rest
          else removelast ((fst head + fst d, snd head + snd d) :: head :: rest))
    /\ tl (Snake.body s') = (if g then head :: rest else removelast (head :: rest))
    /\ Snake.direction s' = d
    /\ Snake.grow s' = false
    /\ (1 <= length (Snake.body s'))%nat.
Proof.
  eexists. split; [apply move_cons|].
  cbn [Snake.body Snake.direction Snake.grow].
  destruct g; cbn [hd_error tl length]; unfold vadd;
    repeat split; auto; lia.
Qed.

(** The example of the spec: the moved snake may leave the grid. *)
Example move_leaves_grid :
  Snake.move (Snake.mk [(0, 0)] LEFT false) = Some (Snake.mk [(-1, 0)] LEFT false).
Proof. reflexivity. Qed.

Lemma move_keeps_length (s : Snake.t) :
  Snake.grow s = false -> Snake.body s <> [] ->
  exists s', Snake.move s = Some s'
             /\ length (Snake.body s') = length (Snake.body s)
             /\ Snake.grow s' = false
             /\ Snake.direction s' = Snake.direction s.
Proof.
  destruct s as [b d g]; cbn [Snake.grow Snake.body Snake.direction].
  intros -> Hne. destruct b as [|head rest]; [congruence|].
  eexists. split; [apply move_cons|].
  cbn [Snake.body Snake.grow Snake.direction length].
  rewrite length_removelast_cons. auto.
Qed.

(** C8. From a snake with [grow] false (and a body, as every snake has),
    [n] calls of [move] with no [eat_food] in between all return, and the
    body has the length it had before; [grow] is still false. *)
Theorem move_n_length (n : nat) (s : Snake.t) :
  Snake.grow s = false -> Snake.body s <> [] ->
  exists s', move_n n s = Some s'
             /\ length (Snake.body s') = length (Snake.body s)
             /\ Snake.grow s' = false.
Proof.
  revert s; induction n as [|n IH]; intros s Hg Hb.
  - exists s. auto.
  - destruct (move_keeps_length s Hg Hb) as (s1 & Hm & Hl & Hg1 & _).
    assert (Hb1 : Snake.body s1 <> []).
    { intros E. rewrite E in Hl. destruct (Snake.body s); [congruence|discriminate]. }
    destruct (IH s1 Hg1 Hb1) as (s' & Hn & Hl' & Hg').
    exists s'. cbn [move_n]. rewrite Hm. repeat split; congruence.
Qed.

Lemma move_n_length_witness :
  Snake.grow Snake.reset = false /\ Snake.body Snake.reset <> []
  /\ exists s', move_n 5 Snake.reset = Some s'
                /\ length (Snake.body s') = length (Snake.body Snake.reset)
                /\ Snake.grow s' = false.
Proof.
  split; [reflexivity|]. split; [discriminate|].
  apply (move_n_length 5 Snake.reset); [reflexivity | discriminate].
Defined.

(** ** check_collision *)

(** C6. On a snake with at least one segment, [check_collision] returns,
    and returns [True] exactly when the head is outside
    [0, GRID_WIDTH) x [0, GRID_HEIGHT) or occurs in [body[1:]].  With body
    [[(0,0)]] heading left, one [move] leads to a collision, whatever
    [grow] was. *)
Theorem check_collision_spec :
  (forall (head : Cell) (rest : list Cell) (d : Z * Z) (g : bool),
      exists b, Snake.check_collision (Snake.mk (head :: rest) d g) = Some b
                /\ (b = true <-> ~ in_grid head \/ In head rest))
  /\ (forall g : bool,
        exists s', Snake.move (Snake.mk [(0, 0)] LEFT g) = Some s'
                   /\ Snake.check_collision s' = Some true).
Proof.
  split.
  - apply check_collision_cons.
  - intros g. eexists. split; [apply move_cons|]. destruct g; reflexivity.
Qed.

(** ** eat_food *)

(** C7. On a snake with at least one segment, [eat_food pos] returns; the
    result is [True] exactly when the head is [pos]; in that case only
    [grow] changes, to true; otherwise the snake is unchanged.  After a
    success the next [move] returns a body one longer than before the
    meal, with [grow] false again. *)
Theorem eat_food_spec (head : Cell) (rest : list Cell) (d : Z * Z) (g : bool)
    (pos : Cell) :
  exists (b : bool) (s1 : Snake.t),
    Snake.eat_food pos (Snake.mk (head :: rest) d g) = Some (b, s1)
    /\ (b = true <-> head = pos)
    /\ (b = true -> s1 = Snake.mk (head :: rest) d true)
    /\ (b = false -> s1 = Snake.mk (head :: rest) d g)
    /\ (b = true ->
        exists s2, Snake.move s1 = Some s2
                   /\ length (Snake.body s2) = S (length (head :: rest))
                   /\ Snake.grow s2 = false).
Proof.
  unfold Snake.eat_food; cbn [Snake.body Snake.direction Snake.grow].
  destruct (cell_eqb head pos) eqn:E.
  - apply cell_eqb_eq in E.
    exists true, (Snake.mk (head :: rest) d true).
    repeat split; auto; try discriminate.
    intros _. eexists. split; [apply move_cons|]. split; reflexivity.
  - apply cell_eqb_neq in E.
    exists false, (Snake.mk (head :: rest) d g).
    repeat split; auto; try discriminate; try congruence.
Qed.

(** ** Moving into the tail cell *)

(** C1, as stated, fails: [square_snake] has [grow] false and four
    segments, the new head is its tail cell, and [check_collision] after
    the [move] returns [False]. *)
Lemma move_into_tail_no_collision :
  Snake.grow square_snake = false
  /\ (2 <= length (Snake.body square_snake))%nat
  /\ vadd (hd (0, 0) (Snake.body square_snake)) (Snake.direction square_snake)
     = last (Snake.body square_snake) (0, 0)
  /\ Snake.move square_snake
     = Some (Snake.mk [(6, 5); (5, 5); (5, 6); (6, 6)] RIGHT false)
  /\ Snake.check_collision (Snake.mk [(6, 5); (5, 5); (5, 6); (6, 6)] RIGHT false)
     = Some false.
Proof. repeat split. cbn; lia. Qed.

(** C1, amended.  Take a snake with [grow] false whose body is
    [head :: mid ++ [tail]] (two segments or more) and whose new head is the
    tail cell.  [move] pops the tail before [check_collision] runs, so the
    body checked is [tail :: head :: mid]; the check returns [True] exactly
    when the tail cell is outside the grid or is also the cell of another
    segment, and returns [False] when the segments are pairwise distinct
    and the tail is inside the grid. *)
Theorem move_into_tail (head : Cell) (mid : list Cell) (tail : Cell) (d : Z * Z) :
  vadd head d = tail ->
  exists s' b,
    Snake.move (Snake.mk (head :: mid ++ [tail]) d false) = Some s'
    /\ Snake.body s' = tail :: head :: mid
    /\ Snake.check_collision s' = Some b
    /\ (b = true <-> ~ in_grid tail \/ In tail (head :: mid))
    /\ (NoDup (head :: mid ++ [tail]) -> in_grid tail -> b = false).
Proof.
  intros Hnew.
  destruct (check_collision_cons tail (head :: mid) d false) as (b & Hc & Hb).
  exists (Snake.mk (tail :: head :: mid) d false), b.
  split.
  - rewrite move_cons, Hnew.
    change (head :: mid ++ [tail]) with ((head :: mid) ++ [tail]).
    now rewrite removelast_last.
  - repeat split; auto; try apply Hb.
    intros Hnd Hin.
    change (head :: mid ++ [tail]) with ((head :: mid) ++ [tail]) in Hnd.
    apply NoDup_remove_2 in Hnd. rewrite app_nil_r in Hnd.
    destruct b; [|reflexivity].
    destruct Hb as [Hb _]. destruct (Hb eq_refl); contradiction.
Qed.

Lemma move_into_tail_witness :
  vadd (5, 5) RIGHT = (6, 5)
  /\ exists s' b,
       Snake.move (Snake.mk ((5, 5) :: [(5, 6); (6, 6)] ++ [(6, 5)]) RIGHT false)
       = Some s'
       /\ Snake.body s' = [(6, 5); (5, 5); (5, 6); (6, 6)]
       /\ Snake.check_collision s' = Some b
       /\ (b = true <-> ~ in_grid (6, 5) \/ In (6, 5) [(5, 5); (5, 6); (6, 6)])
       /\ (NoDup ((5, 5) :: [(5, 6); (6, 6)] ++ [(6, 5)]) -> in_grid (6, 5)
           -> b = false).
Proof.
  split; [reflexivity|].
  apply (move_into_tail (5, 5) [(5, 6); (6, 6)] (6, 5) RIGHT). reflexivity.
Defined.

(** ** change_direction *)

Lemma vneg_involutive (v : Z * Z) : vneg (vneg v) = v.
Proof. destruct v as [x y]; unfold vneg; cbn [fst snd]. f_equal; lia. Qed.

Lemma vneg_swap (c d : Z * Z) : d = vneg c <-> vneg d = c.
Proof.
  split; intros H; [rewrite H | rewrite <- H]; now rewrite vneg_involutive.
Qed.

Lemma change_direction_opposite (d : Z * Z) (s : Snake.t) :
  d = vneg (Snake.direction s) -> Snake.change_direction d s = s.
Proof.
  intros H. apply vneg_swap in H.
  unfold Snake.change_direction. fold (vneg d). rewrite H, cell_eqb_refl.
  reflexivity.
Qed.

Lemma change_direction_other (d : Z * Z) (s : Snake.t) :
  d <> vneg (Snake.direction s) ->
  Snake.change_direction d s = Snake.mk (Snake.body s) d (Snake.grow s).
Proof.
  intros H. unfold Snake.change_direction. fold (vneg d).
  assert (E : cell_eqb (vneg d) (Snake.direction s) = false).
  { apply cell_eqb_neq. intros E. apply H. now apply vneg_swap. }
  now rewrite E.
Qed.

(** ** Two requests in one round of the loop *)

(** C10. After a first [move] heading right, the key presses Up then Left
    read in the same round are both accepted; the direction is then the
    exact opposite of the heading of the previous [move]; the next [move]
    puts the head on the previous second segment, and the round ends the
    game. *)
Theorem two_requests_reverse :
  exists (s1 sa sb s2 : Snake.t) (neck : Cell),
    Snake.move Snake.reset = Some s1
    /\ Snake.direction s1 = RIGHT
    /\ sa = Snake.change_direction UP s1
    /\ Snake.direction sa = UP
    /\ sb = Snake.change_direction LEFT sa
    /\ Snake.direction sb = LEFT
    /\ handle_events [KEYDOWN K_UP; KEYDOWN K_LEFT] s1 = Some sb
    /\ Snake.direction sb = vneg (Snake.direction s1)
    /\ nth_error (Snake.body s1) 1 = Some neck
    /\ Snake.move sb = Some s2
    /\ hd_error (Snake.body s2) = Some neck
    /\ Snake.check_collision s2 = Some true
    /\ forall (food : Cell) (n : Z) (tape : list Z),
         frame [KEYDOWN K_UP; KEYDOWN K_LEFT] (mkGame s1 food n) tape
         = GameOver (mkGame s2 food n) tape.
Proof.
  exists (Snake.mk [(16, 10); (15, 10); (14, 10)] RIGHT false).
  exists (Snake.mk [(16, 10); (15, 10); (14, 10)] UP false).
  exists (Snake.mk [(16, 10); (15, 10); (14, 10)] LEFT false).
  exists (Snake.mk [(15, 10); (16, 10); (15, 10)] LEFT false).
  exists (15, 10).
  repeat split.
Qed.

(** ** generate_food *)

Lemma randint_range (a b r : Z) : a <= b -> a <= randint a b r <= b.
Proof.
  intros H. unfold randint.
  pose proof (Z.mod_pos_bound r (b - a + 1)). lia.
Qed.

Lemma randint_onto (a b v : Z) : a <= v <= b -> randint a b (v - a) = v.
Proof.
  intros H. unfold randint. rewrite Z.mod_small; lia.
Qed.

Lemma drawn_cell_in_grid (rx ry : Z) :
  in_grid (randint 0 (GRID_WIDTH - 1) rx, randint 0 (GRID_HEIGHT - 1) ry).
Proof.
  unfold in_grid; cbn [fst snd].
  pose proof (randint_range 0 (GRID_WIDTH - 1) rx).
  pose proof (randint_range 0 (GRID_HEIGHT - 1) ry).
  rewrite GRID_WIDTH_eq, GRID_HEIGHT_eq in *. lia.
Qed.

(** Induction on a tape read two values at a time. *)
Lemma tape_pair_ind (P : list Z -> Prop) :
  P [] -> (forall r, P [r]) -> (forall rx ry t, P t -> P (rx :: ry :: t)) ->
  forall t, P t.
Proof.
  intros H0 H1 H2 t.
  enough (H : P t /\ forall r, P (r :: t)) by apply H.
  induction t as [|x t [IHa IHb]]; split; auto.
Qed.

Lemma generate_food_sound (snake_body : list Cell) (tape : list Z) :
  forall c tape', generate_food snake_body tape = Some (c, tape') ->
                  in_grid c /\ ~ In c snake_body.
Proof.
  induction tape as [| r | rx ry t IH] using tape_pair_ind;
    intros c tape' H; try discriminate.
  cbn [generate_food] in H.
  destruct (cell_in _ snake_body) eqn:M; cbn [negb] in H.
  - eauto.
  - inversion H; subst. split.
    + apply drawn_cell_in_grid.
    + now apply cell_in_not_In.
Qed.

(** A round that draws a free cell stops the loop; a round that draws an
    occupied cell goes on with the rest of the tape. *)
Lemma generate_food_hit (snake_body : list Cell) (c : Cell) (t : list Z) :
  in_grid c -> ~ In c snake_body ->
  generate_food snake_body (fst c :: snd c :: t) = Some (c, t).
Proof.
  intros [Hx Hy] Hfree. cbn [generate_food].
  rewrite GRID_WIDTH_eq in Hx. rewrite GRID_HEIGHT_eq in Hy.
  assert (Ex : randint 0 (GRID_WIDTH - 1) (fst c) = fst c).
  { unfold randint. rewrite GRID_WIDTH_eq. rewrite Z.mod_small; lia. }
  assert (Ey : randint 0 (GRID_HEIGHT - 1) (snd c) = snd c).
  { unfold randint. rewrite GRID_HEIGHT_eq. rewrite Z.mod_small; lia. }
  rewrite Ex, Ey. destruct c as [x y]; cbn [fst snd].
  apply cell_in_not_In in Hfree. now rewrite Hfree.
Qed.

Lemma generate_food_miss (snake_body : list Cell) (rx ry : Z) (t : list Z) :
  In (randint 0 (GRID_WIDTH - 1) rx, randint 0 (GRID_HEIGHT - 1) ry) snake_body ->
  generate_food snake_body (rx :: ry :: t) = generate_food snake_body t.
Proof.
  intros H. apply cell_in_In in H. cbn [generate_food]. now rewrite H.
Qed.

(** C9. When the occupied cells do not cover the grid, there are tapes on
    which [generate_food] returns (any tape that holds a free cell after
    rounds of occupied ones), and whenever it returns, on any tape, the
    cell is inside the grid and is not one of the occupied cells. *)
Theorem generate_food_spec (occupied : list Cell) :
  (exists c, in_grid c /\ ~ In c occupied) ->
  (exists tape c tape', generate_food occupied tape = Some (c, tape'))
  /\ (forall tape c tape',
        generate_food occupied tape = Some (c, tape') ->
        in_grid c /\ ~ In c occupied).
Proof.
  intros (c & Hin & Hfree). split.
  - exists [fst c; snd c], c, []. now apply generate_food_hit.
  - intros tape. apply generate_food_sound.
Qed.

Lemma generate_food_spec_witness :
  (exists c, in_grid c /\ ~ In c (Snake.body Snake.reset))
  /\ (exists tape c tape',
         generate_food (Snake.body Snake.reset) tape = Some (c, tape'))
  /\ (forall tape c tape',
        generate_food (Snake.body Snake.reset) tape = Some (c, tape') ->
        in_grid c /\ ~ In c (Snake.body Snake.reset)).
Proof.
  assert (H : exists c, in_grid c /\ ~ In c (Snake.body Snake.reset)).
  { exists (0, 0). split.
    - unfold in_grid; cbn; lia.
    - cbn. intros [E | [E | [E | []]]]; discriminate. }
  split; [exact H|]. apply (generate_food_spec (Snake.body Snake.reset) H).
Defined.

(** A draw on the snake is thrown away and the next one is taken. *)
Example generate_food_redraws :
  generate_food (Snake.body Snake.reset) [15; 10; 44; 23; 7] = Some ((14, 3), [7]).
Proof. reflexivity. Qed.

(** ** One round of game_loop *)

(** C4. In a round where no QUIT event is read and [check_collision]
    returns [True] after [move], the round ends in the game-over branch
    with the score and the food position it started with; [eat_food] is
    not called (the snake is exactly the moved snake, [grow] false) and no
    random number is drawn. *)
Theorem frame_collision (events : list Event) (g : Game) (tape : list Z)
    (s0 s1 : Snake.t) :
  handle_events events (snake g) = Some s0 ->
  Snake.move s0 = Some s1 ->
  Snake.check_collision s1 = Some true ->
  frame events g tape
  = GameOver {| snake := s1; food_pos := food_pos g; score := score g |} tape
  /\ Snake.grow s1 = false.
Proof.
  intros He Hm Hc. unfold frame. rewrite He, Hm, Hc. split; [reflexivity|].
  destruct s0 as [[|head rest] d gr]; [discriminate|].
  rewrite move_cons in Hm. inversion Hm. reflexivity.
Qed.

Lemma frame_collision_witness :
  frame [] wall_game [3; 4]
  = GameOver {| snake := Snake.mk [(30, 10); (29, 10); (28, 10)] RIGHT false;
                food_pos := (3, 3);
                score := 7 |} [3; 4]
  /\ Snake.grow (Snake.mk [(30, 10); (29, 10); (28, 10)] RIGHT false) = false.
Proof.
  apply (frame_collision [] wall_game [3; 4]
           (Snake.mk [(29, 10); (28, 10); (27, 10)] RIGHT false)
           (Snake.mk [(30, 10); (29, 10); (28, 10)] RIGHT false));
    reflexivity.
Defined.

(** C2, as stated, fails: after the single round the body has three
    segments, not four, and the new food may be the cell (13, 10) that the
    tail has just left. *)
Lemma first_round_length_three :
  frame [] scenario_start [13; 10]
  = Continue {| snake := Snake.mk [(16, 10); (15, 10); (14, 10)] RIGHT true;
                food_pos := (13, 10);
                score := 1 |} []
  /\ length [(16, 10); (15, 10); (14, 10)] = 3%nat
  /\ length [(16, 10); (15, 10); (14, 10)] <> 4%nat.
Proof. repeat split. discriminate. Qed.

(** C2, amended.  From [scenario_start], one round with no event moves the
    head to (16, 10) without collision, [eat_food] returns [True], and, on
    every tape on which [generate_food] returns, the round goes on with
    score 1, the body [(16,10), (15,10), (14,10)] of three segments with
    [grow] set, and a new food inside the grid and off these three cells.
    The body has four segments after the next [move]. *)
Theorem first_round_eats (tape : list Z) (food' : Cell) (tape' : list Z) :
  generate_food [(16, 10); (15, 10); (14, 10)] tape = Some (food', tape') ->
  let s1 := Snake.mk [(16, 10); (15, 10); (14, 10)] RIGHT false in
  let s2 := Snake.mk [(16, 10); (15, 10); (14, 10)] RIGHT true in
  Snake.move (snake scenario_start) = Some s1
  /\ Snake.check_collision s1 = Some false
  /\ Snake.eat_food (food_pos scenario_start) s1 = Some (true, s2)
  /\ frame [] scenario_start tape
     = Continue {| snake := s2; food_pos := food'; score := 1 |} tape'
  /\ length (Snake.body s2) = 3%nat
  /\ in_grid food'
  /\ ~ In food' (Snake.body s2)
  /\ exists s3, Snake.move s2 = Some s3 /\ length (Snake.body s3) = 4%nat.
Proof.
  intros Hgen s1 s2.
  split; [reflexivity|]. split; [reflexivity|]. split; [reflexivity|].
  split.
  - unfold frame. cbn [handle_events scenario_start snake food_pos score].
    change (Snake.move Snake.reset) with (Some s1). cbv iota beta.
    change (Snake.check_collision s1) with (Some false). cbv iota beta.
    change (Snake.eat_food (16, 10) s1) with (Some (true, s2)). cbv iota beta.
    change (Snake.body s2) with [(16, 10); (15, 10); (14, 10)].
    rewrite Hgen. reflexivity.
  - split; [reflexivity|].
    destruct (generate_food_sound _ _ _ _ Hgen) as [Hin Hfree].
    split; [exact Hin|]. split; [exact Hfree|].
    eexists. split; reflexivity.
Qed.

Lemma first_round_eats_witness :
  generate_food [(16, 10); (15, 10); (14, 10)] [16; 10; 2; 3; 9] = Some ((2, 3), [9])
  /\ frame [] scenario_start [16; 10; 2; 3; 9]
     = Continue {| snake := Snake.mk [(16, 10); (15, 10); (14, 10)] RIGHT true;
                   food_pos := (2, 3);
                   score := 1 |} [9].
Proof.
  split; [reflexivity|].
  apply (first_round_eats [16; 10; 2; 3; 9] (2, 3) [9]). reflexivity.
Defined.

(** ** The loop never raises *)

Lemma change_direction_body (d : Z * Z) (s : Snake.t) :
  Snake.body (Snake.change_direction d s) = Snake.body s.
Proof. unfold Snake.change_direction. destruct (negb _); reflexivity. Qed.

Lemma handle_events_body (events : list Event) :
  forall s s', handle_events events s = Some s' -> Snake.body s' = Snake.body s.
Proof.
  induction events as [|e rest IH]; intros s s' H; cbn [handle_events] in H.
  - now inversion H.
  - destruct e as [|k|]; [discriminate| |now apply IH].
    destruct k; apply IH in H; rewrite ?change_direction_body in H; exact H.
Qed.

(** With a snake of at least one segment, a round of the loop never ends in
    [IndexError], and the snake it leaves has at least one segment. *)
Lemma frame_no_crash (events : list Event) (g : Game) (tape : list Z) :
  Snake.body (snake g) <> [] ->
  match frame events g tape with
  | Crash => False
  | GameOver g' _ | Continue g' _ => Snake.body (snake g') <> []
  | Quit | Starved => True
  end.
Proof.
  intros Hb. unfold frame.
  destruct (handle_events events (snake g)) as [s0|] eqn:He; [|exact I].
  apply handle_events_body in He. rewrite <- He in Hb.
  destruct s0 as [[|head rest] d gr]; [now elim Hb|].
  rewrite move_cons.
  set (b1 := if gr then _ else _).
  assert (Hb1 : exists h1 r1, b1 = h1 :: r1) by (subst b1; destruct gr; eauto).
  destruct Hb1 as (h1 & r1 & ->).
  destruct (check_collision_cons h1 r1 d false) as (b & -> & _).
  destruct b; [cbn [snake Snake.body]; discriminate|].
  unfold Snake.eat_food; cbn [Snake.body Snake.direction Snake.grow].
  destruct (cell_eqb h1 (food_pos g)).
  - cbn [Snake.body].
    destruct (generate_food (h1 :: r1) tape) as [[food' tape']|]; [|exact I].
    cbn [snake Snake.body]; discriminate.
  - cbn [snake Snake.body]; discriminate.
Qed.

(** ** What the rounds of the loop keep *)

Lemma In_removelast {A : Type} (x : A) (l : list A) :
  In x (removelast l) -> In x l.
Proof.
  induction l as [|a l IH]; [auto|].
  destruct l as [|b l]; [intros []|].
  change (removelast (a :: b :: l)) with (a :: removelast (b :: l)).
  intros [E | H]; [left; exact E | right; apply IH, H].
Qed.

Lemma NoDup_removelast {A : Type} (l : list A) :
  NoDup l -> NoDup (removelast l).
Proof.
  induction l as [|a l IH]; [auto|].
  destruct l as [|b l]; [intros _; constructor|].
  change (removelast (a :: b :: l)) with (a :: removelast (b :: l)).
  intros H. inversion H as [|? ? Hn Hd]; subst. constructor.
  - intros Hin. apply Hn. now apply In_removelast.
  - apply IH, Hd.
Qed.

Lemma Forall_removelast {A : Type} (P : A -> Prop) (l : list A) :
  Forall P l -> Forall P (removelast l).
Proof.
  intros H. apply Forall_forall. intros x Hx.
  apply In_removelast in Hx. revert x Hx. now apply Forall_forall.
Qed.

Lemma contiguous_removelast (l : list Cell) :
  contiguous l -> contiguous (removelast l).
Proof.
  induction l as [|a l IH]; [auto|].
  destruct l as [|b l]; [auto|].
  change (removelast (a :: b :: l)) with (a :: removelast (b :: l)).
  intros [Hab Hc]. specialize (IH Hc).
  destruct l as [|c l]; [exact I|].
  change (removelast (b :: c :: l)) with (b :: removelast (c :: l)) in *.
  split; assumption.
Qed.

Lemma change_direction_grow (d : Z * Z) (s : Snake.t) :
  Snake.grow (Snake.change_direction d s) = Snake.grow s.
Proof. unfold Snake.change_direction. destruct (negb _); reflexivity. Qed.

Lemma change_direction_heading (c : Direction) (s : Snake.t) :
  is_heading (Snake.direction s) ->
  is_heading (Snake.direction (Snake.change_direction (vec c) s)).
Proof.
  intros H. unfold Snake.change_direction.
  destruct (negb _); [exists c; reflexivity | exact H].
Qed.

Lemma handle_events_keeps (events : list Event) :
  forall s s', handle_events events s = Some s' ->
    Snake.body s' = Snake.body s
    /\ Snake.grow s' = Snake.grow s
    /\ (is_heading (Snake.direction s) -> is_heading (Snake.direction s')).
Proof.
  induction events as [|e rest IH]; intros s s' H; cbn [handle_events] in H.
  - inversion H; subst. auto.
  - destruct e as [|k|]; [discriminate| |now apply IH].
    destruct k; try (now apply IH);
      apply IH in H; destruct H as (Hb & Hg & Hh);
      rewrite change_direction_body in Hb;
      rewrite change_direction_grow in Hg;
      (split; [exact Hb|]); (split; [exact Hg|]); intros Hd; apply Hh.
    + now apply (change_direction_heading Up).
    + now apply (change_direction_heading Down).
    + now apply (change_direction_heading Left).
    + now apply (change_direction_heading Right).
Qed.

(** The body behind the new head after [move]. *)
Lemma moved_tail (head : Cell) (rest : list Cell) (gr : bool) :
  let tlb := if gr then head :: rest else removelast (head :: rest) in
  (forall x, In x tlb -> In x (head :: rest))
  /\ (NoDup (head :: rest) -> NoDup tlb)
  /\ (contiguous (head :: rest) -> contiguous tlb)
  /\ (tlb = [] \/ exists r', tlb = head :: r')
  /\ Z.of_nat (length tlb) + (if gr then 0 else 1)
     = Z.of_nat (length (head :: rest)).
Proof.
  destruct gr; cbv zeta.
  - repeat split; auto. right; eauto.
  - split; [intros x; apply In_removelast|].
    split; [apply NoDup_removelast|].
    split; [apply contiguous_removelast|].
    split.
    + destruct rest as [|b rest]; [left; reflexivity|right].
      change (removelast (head :: b :: rest)) with (head :: removelast (b :: rest)).
      eauto.
    + rewrite length_removelast_cons. cbn [length]. lia.
Qed.

(** A round that goes on, taken apart: the direction [d] after the events,
    the new head, the body behind it, and the two ways the round ends. *)
Lemma frame_continue (events : list Event) (g : Game) (tape : list Z)
    (g' : Game) (tape' : list Z) (head : Cell) (rest : list Cell) :
  Snake.body (snake g) = head :: rest ->
  frame events g tape = Continue g' tape' ->
  exists (s0 : Snake.t) (tlb : list Cell),
    handle_events events (snake g) = Some s0
    /\ tlb = (if Snake.grow (snake g) then head :: rest
              else removelast (head :: rest))
    /\ in_grid (vadd head (Snake.direction s0))
    /\ ~ In (vadd head (Snake.direction s0)) tlb
    /\ ((vadd head (Snake.direction s0) = food_pos g
         /\ generate_food (vadd head (Snake.direction s0) :: tlb) tape
            = Some (food_pos g', tape')
         /\ snake g' = Snake.mk (vadd head (Snake.direction s0) :: tlb)
                                (Snake.direction s0) true
         /\ score g' = score g + 1)
        \/ (vadd head (Snake.direction s0) <> food_pos g
            /\ tape' = tape
            /\ snake g' = Snake.mk (vadd head (Snake.direction s0) :: tlb)
                                   (Snake.direction s0) false
            /\ food_pos g' = food_pos g
            /\ score g' = score g)).
Proof.
  intros Hb H. unfold frame in H.
  destruct (handle_events events (snake g)) as [s0|] eqn:He; [|discriminate].
  destruct (handle_events_keeps _ _ _ He) as (Hb0 & Hg0 & _).
  destruct s0 as [b0 d gr]; cbn [Snake.body Snake.grow Snake.direction] in *.
  rewrite Hb in Hb0. subst b0. rewrite <- Hg0.
  rewrite move_cons in H.
  remember (if gr then head :: rest else removelast (head :: rest)) as tlb
    eqn:Htlb.
  match type of H with
  | context [Snake.mk ?b d false] =>
      replace b with (vadd head d :: tlb) in H
        by (subst tlb; destruct gr; reflexivity)
  end.
  destruct (check_collision_cons (vadd head d) tlb d false) as (b & Hc & Hiff).
  unfold Cell in *. rewrite Hc in H. destruct b; [discriminate|].
  assert (Hok : in_grid (vadd head d) /\ ~ In (vadd head d) tlb).
  { split.
    - destruct (wall_test_false (vadd head d)) as [W _].
      destruct ((fst (vadd head d) <? 0) || (fst (vadd head d) >=? GRID_WIDTH)
                || (snd (vadd head d) <? 0) || (snd (vadd head d) >=? GRID_HEIGHT))
        eqn:T; [|now apply W].
      apply wall_test_true in T.
      destruct Hiff as [_ Hiff]. discriminate Hiff. now left.
    - intros Hin. destruct Hiff as [_ Hiff]. discriminate Hiff. now right. }
  destruct Hok as [Hgrid Hfree].
  exists (Snake.mk (head :: rest) d gr), tlb.
  cbn [Snake.direction].
  split; [reflexivity|]. split; [reflexivity|].
  split; [exact Hgrid|]. split; [exact Hfree|].
  unfold Snake.eat_food in H; cbn [Snake.body Snake.direction Snake.grow] in H.
  destruct (cell_eqb (vadd head d) (food_pos g)) eqn:Ef.
  - apply cell_eqb_eq in Ef. left. cbn [Snake.body] in H.
    destruct (generate_food (vadd head d :: tlb) tape) as [[food' t']|] eqn:G;
      [|discriminate].
    inversion H; subst. cbn [snake food_pos score]. auto.
  - apply cell_eqb_neq in Ef. right.
    inversion H; subst. cbn [snake food_pos score]. auto.
Qed.

Lemma Inv_body (g : Game) :
  Inv g -> exists head neck rest, Snake.body (snake g) = head :: neck :: rest.
Proof.
  intros I. pose proof (inv_length g I) as L.
  pose proof (inv_meal g I) as M. pose proof (inv_score g I) as S0.
  destruct (Snake.body (snake g)) as [|head [|neck rest]]; cbn [length] in L.
  - destruct (Snake.grow (snake g)); [specialize (M eq_refl)|]; lia.
  - destruct (Snake.grow (snake g)); [specialize (M eq_refl)|]; lia.
  - eauto.
Qed.

Lemma game_start_Inv (tape : list Z) (g : Game) (tape' : list Z) :
  game_start tape = Some (g, tape') -> Inv g.
Proof.
  unfold game_start.
  destruct (generate_food (Snake.body Snake.reset) tape) as [[food t]|] eqn:G;
    [|discriminate].
  intros H; inversion H; subst; clear H.
  apply generate_food_sound in G. destruct G as [Gin Gfree].
  refine (mkInv _ _ _ _ _ _ _ _ _ _ _); cbn [snake food_pos score].
  - repeat constructor; cbn; intuition discriminate.
  - repeat constructor; cbn; lia.
  - cbn. split; [exists Right; reflexivity|].
    split; [exists Right; reflexivity|exact I].
  - exists Right; reflexivity.
  - reflexivity.
  - exact Gin.
  - exact Gfree.
  - reflexivity.
  - discriminate.
  - lia.
Qed.

Lemma frame_Inv (events : list Event) (g : Game) (tape : list Z)
    (g' : Game) (tape' : list Z) :
  Inv g -> frame events g tape = Continue g' tape' -> Inv g'.
Proof.
  intros I H.
  destruct (Inv_body g I) as (head & neck & rest & Hb).
  destruct (frame_continue _ _ _ _ _ _ _ Hb H)
    as (s0 & tlb & He & Htlb & Hgrid & Hfree & Hend).
  destruct (handle_events_keeps _ _ _ He) as (_ & _ & Hh).
  specialize (Hh (inv_heading g I)). destruct Hh as [dir Hdir].
  pose proof (moved_tail head (neck :: rest) (Snake.grow (snake g))) as T.
  cbv zeta in T. rewrite <- Htlb in T.
  destruct T as (Tin & Tnd & Tc & Thd & Tlen).
  pose proof (inv_nodup g I) as Ind. pose proof (inv_grid g I) as Ig.
  pose proof (inv_contiguous g I) as Ic. pose proof (inv_length g I) as Il.
  pose proof (inv_food_free g I) as Iff. pose proof (inv_score g I) as Is.
  rewrite Hb in Ind, Ig, Ic, Il, Iff.
  assert (Hnd : NoDup (vadd head (Snake.direction s0) :: tlb))
    by (constructor; auto).
  assert (Hg : Forall in_grid (vadd head (Snake.direction s0) :: tlb)).
  { constructor; [exact Hgrid|]. apply Forall_forall. intros x Hx.
    rewrite Forall_forall in Ig. apply Ig, Tin, Hx. }
  assert (Hc : contiguous (vadd head (Snake.direction s0) :: tlb)).
  { destruct Thd as [-> | [r' ->]]; [constructor|]. split; [|now apply Tc].
    exists dir. now rewrite Hdir. }
  assert (Hlen : Z.of_nat (length (vadd head (Snake.direction s0) :: tlb))
                 = 3 + score g).
  { unfold Cell in *. cbn [length] in *. rewrite Nat2Z.inj_succ.
    destruct (Snake.grow (snake g)); lia. }
  assert (Ha : forall b, aligned (Snake.mk (vadd head (Snake.direction s0) :: tlb)
                                           (Snake.direction s0) b)).
  { intros b. unfold aligned; cbn [Snake.body Snake.direction].
    destruct Thd as [-> | [r' ->]]; [constructor | reflexivity]. }
  destruct Hend as [(Hf & Hgen & Hs & Hsc) | (Hf & Ht & Hs & Hfp & Hsc)].
  - apply generate_food_sound in Hgen. destruct Hgen as [Gin Gfree].
    refine (mkInv _ _ _ _ _ _ _ _ _ _ _); rewrite ?Hs, ?Hsc;
      cbn [Snake.body Snake.direction Snake.grow]; unfold Cell in *; cbv iota.
    + exact Hnd.
    + exact Hg.
    + exact Hc.
    + exists dir; exact Hdir.
    + apply Ha.
    + exact Gin.
    + exact Gfree.
    + lia.
    + lia.
    + lia.
  - refine (mkInv _ _ _ _ _ _ _ _ _ _ _); rewrite ?Hs, ?Hsc, ?Hfp;
      cbn [Snake.body Snake.direction Snake.grow]; unfold Cell in *; cbv iota.
    + exact Hnd.
    + exact Hg.
    + exact Hc.
    + exists dir; exact Hdir.
    + apply Ha.
    + exact (inv_food_grid g I).
    + intros [E | Hin]; [now apply Hf | apply Iff, Tin, Hin].
    + lia.
    + discriminate.
    + lia.
Qed.

Lemma play_Inv (polls : list (list Event)) :
  forall g tape g' tape',
    Inv g -> play polls g tape = Continue g' tape' -> Inv g'.
Proof.
  induction polls as [|events rest IH]; intros g tape g' tape' I H;
    cbn [play] in H.
  - now inversion H; subst.
  - destruct (frame events g tape) as [|? ?|g1 t1| |] eqn:F; try discriminate.
    eapply IH; [|exact H]. eapply frame_Inv; eassumption.
Qed.

Lemma reachable_Inv (g : Game) : reachable g -> Inv g.
Proof.
  intros (tape0 & g0 & tape1 & polls & tape2 & Hs & Hp).
  eapply play_Inv; [|exact Hp]. eapply game_start_Inv; exact Hs.
Qed.

Lemma after_two_rounds_reachable : reachable after_two_rounds.
Proof.
  exists two_rounds_tape,
    {| snake := Snake.reset; food_pos := (16, 10); score := 0 |},
    [3; 4], two_rounds_polls, [].
  split; reflexivity.
Qed.

(** X1. In every state in which a round of [game_loop] starts, the cells
    of the snake are pairwise distinct and inside the grid, and
    [check_collision] on that snake returns [False]. *)
Theorem reachable_snake_safe (g : Game) :
  reachable g ->
  NoDup (Snake.body (snake g))
  /\ Forall in_grid (Snake.body (snake g))
  /\ Snake.check_collision (snake g) = Some false.
Proof.
  intros R. pose proof (reachable_Inv g R) as HI.
  pose proof (inv_nodup g HI) as Hnd. pose proof (inv_grid g HI) as Hg.
  split; [exact Hnd|]. split; [exact Hg|].
  destruct (Inv_body g HI) as (head & neck & rest & Hb).
  destruct (snake g) as [b d gr]; cbn [Snake.body] in *. subst b.
  destruct (check_collision_cons head (neck :: rest) d gr) as (b & Hc & Hiff).
  rewrite Hc. destruct b; [|reflexivity]. exfalso.
  destruct Hiff as [Hiff _]. destruct (Hiff eq_refl) as [Hout | Hin].
  - apply Hout. now inversion Hg.
  - inversion Hnd; contradiction.
Qed.

Lemma reachable_snake_safe_witness :
  reachable after_two_rounds
  /\ NoDup (Snake.body (snake after_two_rounds))
  /\ Forall in_grid (Snake.body (snake after_two_rounds))
  /\ Snake.check_collision (snake after_two_rounds) = Some false.
Proof.
  split; [exact after_two_rounds_reachable|].
  apply (reachable_snake_safe after_two_rounds after_two_rounds_reachable).
Defined.

(** X2. In every state in which a round starts, each segment of the snake
    is one unit step away from the next, the direction is one of the four
    headings, and it is the step from the second segment to the head. *)
Theorem reachable_contiguous (g : Game) :
  reachable g ->
  contiguous (Snake.body (snake g))
  /\ is_heading (Snake.direction (snake g))
  /\ aligned (snake g).
Proof.
  intros R. pose proof (reachable_Inv g R) as HI.
  split; [apply (inv_contiguous g HI)|].
  split; [apply (inv_heading g HI) | apply (inv_aligned g HI)].
Qed.

Lemma reachable_contiguous_witness :
  reachable after_two_rounds
  /\ contiguous (Snake.body (snake after_two_rounds))
  /\ is_heading (Snake.direction (snake after_two_rounds))
  /\ aligned (snake after_two_rounds).
Proof.
  split; [exact after_two_rounds_reachable|].
  apply (reachable_contiguous after_two_rounds after_two_rounds_reachable).
Defined.

(** X3. In every state in which a round starts, the food is inside the
    grid and on no cell of the snake. *)
Theorem reachable_food_free (g : Game) :
  reachable g ->
  in_grid (food_pos g) /\ ~ In (food_pos g) (Snake.body (snake g)).
Proof.
  intros R. pose proof (reachable_Inv g R) as HI.
  split; [apply (inv_food_grid g HI) | apply (inv_food_free g HI)].
Qed.

Lemma reachable_food_free_witness :
  reachable after_two_rounds
  /\ in_grid (food_pos after_two_rounds)
  /\ ~ In (food_pos after_two_rounds) (Snake.body (snake after_two_rounds)).
Proof.
  split; [exact after_two_rounds_reachable|].
  apply (reachable_food_free after_two_rounds after_two_rounds_reachable).
Defined.

(** X4. In every state in which a round starts, the score is not negative
    and the snake has [3 + score] segments, less the one still owed when
    [grow] is set; so it never has fewer than three. *)
Theorem reachable_length_score (g : Game) :
  reachable g ->
  0 <= score g
  /\ Z.of_nat (length (Snake.body (snake g)))
     = 3 + score g - (if Snake.grow (snake g) then 1 else 0)
  /\ (3 <= length (Snake.body (snake g)))%nat.
Proof.
  intros R. pose proof (reachable_Inv g R) as HI.
  pose proof (inv_length g HI) as L. pose proof (inv_meal g HI) as M.
  pose proof (inv_score g HI) as S0.
  destruct (Snake.grow (snake g)); [specialize (M eq_refl)|]; lia.
Qed.

Lemma reachable_length_score_witness :
  reachable after_two_rounds
  /\ 0 <= score after_two_rounds
  /\ Z.of_nat (length (Snake.body (snake after_two_rounds)))
     = 3 + score after_two_rounds
       - (if Snake.grow (snake after_two_rounds) then 1 else 0)
  /\ (3 <= length (Snake.body (snake after_two_rounds)))%nat.
Proof.
  split; [exact after_two_rounds_reachable|].
  apply (reachable_length_score after_two_rounds after_two_rounds_reachable).
Defined.

Lemma play_no_crash (polls : list (list Event)) :
  forall g tape, Inv g -> play polls g tape <> Crash.
Proof.
  induction polls as [|events rest IH]; intros g tape HI; cbn [play];
    [discriminate|].
  destruct (Inv_body g HI) as (head & neck & r & Hb).
  assert (Hne : Snake.body (snake g) <> []) by (rewrite Hb; discriminate).
  pose proof (frame_no_crash events g tape Hne) as F.
  destruct (frame events g tape) as [|? ?|g1 t1| |] eqn:E;
    try discriminate; [|contradiction].
  apply IH. eapply frame_Inv; eassumption.
Qed.

(** X5. From the start of [game_loop], no sequence of rounds raises
    [IndexError]: whatever the events and the random draws, [body[0]] is
    never read on an empty body. *)
Theorem rounds_never_raise (tape : list Z) (g0 : Game) (tape' : list Z)
    (polls : list (list Event)) :
  game_start tape = Some (g0, tape') ->
  play polls g0 tape' <> Crash
  /\ rounds_loop polls g0 tape' <> Raised.
Proof.
  intros Hs. apply game_start_Inv in Hs. split; [now apply play_no_crash|].
  revert g0 tape' Hs.
  induction polls as [|events rest IH]; intros g tape1 HI; cbn [rounds_loop];
    [discriminate|].
  destruct (Inv_body g HI) as (head & neck & r & Hb).
  assert (Hne : Snake.body (snake g) <> []) by (rewrite Hb; discriminate).
  pose proof (frame_no_crash events g tape1 Hne) as F.
  destruct (frame events g tape1) as [|g1 t1|g1 t1| |] eqn:E;
    try discriminate; [| |contradiction].
  - destruct (game_over_screen (score g1) rest) as [[[|] r']|]; discriminate.
  - apply IH. eapply frame_Inv; eassumption.
Qed.

Lemma rounds_never_raise_witness :
  game_start two_rounds_tape
  = Some ({| snake := Snake.reset; food_pos := (16, 10); score := 0 |}, [3; 4])
  /\ play two_rounds_polls
          {| snake := Snake.reset; food_pos := (16, 10); score := 0 |} [3; 4]
     <> Crash
  /\ rounds_loop two_rounds_polls
          {| snake := Snake.reset; food_pos := (16, 10); score := 0 |} [3; 4]
     <> Raised.
Proof.
  split; [reflexivity|].
  apply (rounds_never_raise two_rounds_tape _ [3; 4] two_rounds_polls).
  reflexivity.
Defined.

(** ** The events of a round *)

Lemma handle_events_quit (events : list Event) :
  forall s, handle_events events s = None <-> In QUIT events.
Proof.
  induction events as [|e rest IH]; intros s; cbn [handle_events In].
  - split; [discriminate | intros []].
  - destruct e as [|k|].
    + split; auto.
    + destruct k; rewrite IH; split; auto; intros [E | H]; auto; discriminate.
    + rewrite IH; split; auto; intros [E | H]; auto; discriminate.
Qed.

(** X6. A round returns [False] from the event loop exactly when the batch
    holds a QUIT event, wherever it stands in the batch and whatever the
    game state: the snake is then not moved, and keys before or after the
    QUIT have no effect. *)
Theorem frame_quit (events : list Event) (g : Game) (tape : list Z) :
  frame events g tape = Quit <-> In QUIT events.
Proof.
  rewrite <- (handle_events_quit events (snake g)).
  unfold frame.
  destruct (handle_events events (snake g)) as [s0|]; [|tauto].
  split; [|discriminate].
  destruct (Snake.move s0) as [s1|]; [|discriminate].
  destruct (Snake.check_collision s1) as [[|]|]; try discriminate.
  destruct (Snake.eat_food (food_pos g) s1) as [[[|] s2]|]; try discriminate.
  destruct (generate_food (Snake.body s2) tape) as [[? ?]|]; discriminate.
Qed.

Lemma handle_events_app (e1 e2 : list Event) :
  forall s,
    handle_events (e1 ++ e2) s
    = match handle_events e1 s with
      | None => None
      | Some s1 => handle_events e2 s1
      end.
Proof.
  induction e1 as [|e rest IH]; intros s; cbn [app handle_events];
    [reflexivity|].
  destruct e as [|k|]; [reflexivity| |apply IH].
  destruct k; apply IH.
Qed.

(** X7. The event loop of a round without QUIT changes nothing of the
    snake but its direction, and the direction it leaves is the one it
    found or the tuple of an arrow key of the batch; two batches read one
    after the other act as their concatenation. *)
Theorem handle_events_effect :
  (forall (events : list Event) (s s' : Snake.t),
      handle_events events s = Some s' ->
      Snake.body s' = Snake.body s
      /\ Snake.grow s' = Snake.grow s
      /\ (Snake.direction s' = Snake.direction s
          \/ exists k, In (KEYDOWN k) events
                       /\ arrow k = Some (Snake.direction s')))
  /\ (forall (e1 e2 : list Event) (s : Snake.t),
        handle_events (e1 ++ e2) s
        = match handle_events e1 s with
          | None => None
          | Some s1 => handle_events e2 s1
          end).
Proof.
  split; [|intros; apply handle_events_app].
  induction events as [|e rest IH]; intros s s' H; cbn [handle_events] in H.
  - inversion H; subst. auto.
  - assert (Hskip : handle_events rest s = Some s' ->
                    Snake.body s' = Snake.body s
                    /\ Snake.grow s' = Snake.grow s
                    /\ (Snake.direction s' = Snake.direction s
                        \/ exists k, In (KEYDOWN k) (e :: rest)
                                     /\ arrow k = Some (Snake.direction s'))).
    { intros H'. destruct (IH _ _ H') as (Hb & Hg & [Hd | (k & Hk & Ha)]).
      - auto.
      - split; [exact Hb|]. split; [exact Hg|]. right. exists k. split; auto.
        now right. }
    assert (Hkey : forall k d,
               e = KEYDOWN k -> arrow k = Some d ->
               handle_events rest (Snake.change_direction d s) = Some s' ->
               Snake.body s' = Snake.body s
               /\ Snake.grow s' = Snake.grow s
               /\ (Snake.direction s' = Snake.direction s
                   \/ exists k, In (KEYDOWN k) (e :: rest)
                                /\ arrow k = Some (Snake.direction s'))).
    { intros k d -> Hd H'.
      destruct (IH _ _ H') as (Hb & Hg & Hdir).
      rewrite change_direction_body in Hb. rewrite change_direction_grow in Hg.
      split; [exact Hb|]. split; [exact Hg|].
      destruct Hdir as [E | (k' & Hk' & Ha')].
      - rewrite E. unfold Snake.change_direction.
        destruct (negb _); cbn [Snake.direction]; [|now left].
        right. exists k. split; [now left | exact Hd].
      - right. exists k'. split; [now right | exact Ha']. }
    destruct e as [|k|]; [discriminate| |now apply Hskip].
    destruct k; try (now apply Hskip).
    + now apply (Hkey K_UP UP).
    + now apply (Hkey K_DOWN DOWN).
    + now apply (Hkey K_LEFT LEFT).
    + now apply (Hkey K_RIGHT RIGHT).
Qed.

Lemma handle_events_effect_witness :
  Snake.body (Snake.mk [(16, 10); (15, 10); (14, 10)] DOWN false)
  = Snake.body (Snake.mk [(16, 10); (15, 10); (14, 10)] RIGHT false)
  /\ Snake.grow (Snake.mk [(16, 10); (15, 10); (14, 10)] DOWN false)
     = Snake.grow (Snake.mk [(16, 10); (15, 10); (14, 10)] RIGHT false)
  /\ (Snake.direction (Snake.mk [(16, 10); (15, 10); (14, 10)] DOWN false)
      = Snake.direction (Snake.mk [(16, 10); (15, 10); (14, 10)] RIGHT false)
      \/ exists k,
           In (KEYDOWN k) [KEYDOWN K_LEFT; OtherEvent; KEYDOWN K_DOWN; KEYDOWN K_q]
           /\ arrow k
              = Some (Snake.direction
                        (Snake.mk [(16, 10); (15, 10); (14, 10)] DOWN false))).
Proof.
  apply (proj1 handle_events_effect
           [KEYDOWN K_LEFT; OtherEvent; KEYDOWN K_DOWN; KEYDOWN K_q]
           (Snake.mk [(16, 10); (15, 10); (14, 10)] RIGHT false)
           (Snake.mk [(16, 10); (15, 10); (14, 10)] DOWN false)).
  reflexivity.
Defined.

(** X8. A request repeated is a request made once, and a request for the
    direction the snake already has changes nothing, for every tuple. *)
Theorem change_direction_idempotent (d : Z * Z) (s : Snake.t) :
  Snake.change_direction d (Snake.change_direction d s)
  = Snake.change_direction d s
  /\ Snake.change_direction (Snake.direction s) s = s.
Proof.
  split.
  - unfold Snake.change_direction at 2 3.
    destruct (cell_eqb (fst d * -1, snd d * -1) (Snake.direction s)) eqn:E;
      cbn [negb].
    + unfold Snake.change_direction. now rewrite E.
    + unfold Snake.change_direction; cbn [Snake.body Snake.direction Snake.grow].
      destruct (negb _); reflexivity.
  - unfold Snake.change_direction. destruct s as [b c g].
    cbn [Snake.body Snake.direction Snake.grow].
    destruct (negb _); reflexivity.
Qed.

(** ** Reversing within one round *)

Lemma vadd_opposite (neck : Cell) (c : Direction) :
  vadd (vadd neck (vec c)) (vec (opposite c)) = neck.
Proof.
  destruct neck as [x y]; destruct c; unfold vadd; cbn; f_equal; lia.
Qed.

Lemma perpendicular_then_opposite (c p : Direction) (b : list Cell) (gr : bool) :
  p <> c -> p <> opposite c ->
  handle_events [KEYDOWN (key_of p); KEYDOWN (key_of (opposite c))]
                (Snake.mk b (vec c) gr)
  = Some (Snake.mk b (vec (opposite c)) gr).
Proof.
  intros H1 H2. destruct c, p; cbn [opposite] in H2; try congruence; reflexivity.
Qed.

(** X9. In every state in which a round starts, with the snake heading
    [c]: when the batch of the round is the arrow key of a heading [p]
    across [c] followed by the arrow key opposite to [c], both requests
    are accepted, the head moves onto the second segment and the round is
    a game over with the score and the food unchanged. *)
Theorem reverse_in_one_round (g : Game) (c p : Direction) (tape : list Z) :
  reachable g ->
  Snake.direction (snake g) = vec c ->
  p <> c -> p <> opposite c ->
  exists s',
    frame [KEYDOWN (key_of p); KEYDOWN (key_of (opposite c))] g tape
    = GameOver {| snake := s'; food_pos := food_pos g; score := score g |} tape
    /\ Snake.direction s' = vec (opposite c)
    /\ hd_error (Snake.body s') = nth_error (Snake.body (snake g)) 1.
Proof.
  intros R Hd Hp1 Hp2. pose proof (reachable_Inv g R) as HI.
  pose proof (inv_aligned g HI) as Ha.
  pose proof (inv_length g HI) as L. pose proof (inv_meal g HI) as M.
  pose proof (inv_score g HI) as S0.
  destruct g as [[b d gr] food sc];
    cbn [snake food_pos score Snake.body Snake.direction Snake.grow] in *.
  subst d.
  destruct b as [|head [|neck [|third rest]]]; cbn [length] in L;
    try (destruct gr; [specialize (M eq_refl)|]; lia).
  unfold aligned in Ha; cbn [Snake.body Snake.direction] in Ha.
  unfold frame; cbn [snake food_pos score].
  rewrite (perpendicular_then_opposite c p _ gr Hp1 Hp2).
  rewrite move_cons.
  assert (Hn : vadd head (vec (opposite c)) = neck)
    by (rewrite Ha; apply vadd_opposite).
  rewrite Hn.
  set (b1 := if gr then _ else _).
  assert (Hb1 : exists tlb, b1 = neck :: tlb /\ In neck tlb).
  { subst b1. destruct gr.
    - eexists; split; [reflexivity|]. right; now left.
    - change (removelast (head :: neck :: third :: rest))
        with (head :: neck :: removelast (third :: rest)).
      eexists; split; [reflexivity|]. right; now left. }
  destruct Hb1 as (tlb & -> & Hin).
  destruct (check_collision_cons neck tlb (vec (opposite c)) false)
    as (bb & Hc & Hiff).
  unfold Cell in *. rewrite Hc.
  assert (bb = true) as -> by (apply Hiff; now right).
  eexists. split; [reflexivity|]. split; reflexivity.
Qed.

Lemma reverse_in_one_round_witness :
  reachable after_two_rounds
  /\ exists s',
       frame [KEYDOWN (key_of Left); KEYDOWN (key_of (opposite Up))]
             after_two_rounds [7; 7]
       = GameOver {| snake := s';
                     food_pos := food_pos after_two_rounds;
                     score := score after_two_rounds |} [7; 7]
       /\ Snake.direction s' = vec (opposite Up)
       /\ hd_error (Snake.body s')
          = nth_error (Snake.body (snake after_two_rounds)) 1.
Proof.
  split; [exact after_two_rounds_reachable|].
  apply (reverse_in_one_round after_two_rounds Up Left [7; 7]
           after_two_rounds_reachable); [reflexivity | discriminate | discriminate].
Defined.

(** ** More on generate_food *)

Lemma all_cells_cover (c : Cell) : in_grid c -> In c all_cells.
Proof.
  destruct c as [x y]. unfold in_grid, all_cells; cbn [fst snd].
  rewrite GRID_WIDTH_eq, GRID_HEIGHT_eq. intros [Hx Hy].
  apply in_prod; apply in_map_iff.
  - exists (Z.to_nat x). split; [lia|]. apply in_seq. lia.
  - exists (Z.to_nat y). split; [lia|]. apply in_seq. lia.
Qed.

(** X10. When the occupied cells cover the whole grid, [generate_food]
    returns on no tape: every round draws an occupied cell and the loop
    goes on. *)
Theorem generate_food_full_grid (occupied : list Cell) :
  (forall c, in_grid c -> In c occupied) ->
  forall tape, generate_food occupied tape = None.
Proof.
  intros Hfull tape.
  induction tape as [| r | rx ry t IH] using tape_pair_ind; try reflexivity.
  rewrite generate_food_miss; [exact IH|].
  apply Hfull, drawn_cell_in_grid.
Qed.

Lemma generate_food_full_grid_witness :
  (forall c, in_grid c -> In c all_cells)
  /\ generate_food all_cells [3; 4; 29; 19; 0; 0; 640; -7] = None.
Proof.
  split; [exact all_cells_cover|].
  apply (generate_food_full_grid all_cells all_cells_cover).
Defined.

(** X11. The result of [generate_food] depends on the occupied cells only
    through which cells they are, not on their order or repetitions. *)
Theorem generate_food_membership (b1 b2 : list Cell) (tape : list Z) :
  (forall c, In c b1 <-> In c b2) ->
  generate_food b1 tape = generate_food b2 tape.
Proof.
  intros Hsame.
  assert (E : forall c, cell_in c b1 = cell_in c b2).
  { intros c. destruct (cell_in c b2) eqn:M.
    - apply cell_in_In. apply Hsame. now apply cell_in_In.
    - apply cell_in_not_In. rewrite Hsame. now apply cell_in_not_In. }
  induction tape as [| r | rx ry t IH] using tape_pair_ind; try reflexivity.
  cbn [generate_food]. rewrite E, IH. reflexivity.
Qed.

Lemma generate_food_membership_witness :
  (forall c, In c [(1, 1); (2, 2)] <-> In c [(2, 2); (1, 1); (2, 2)])
  /\ generate_food [(1, 1); (2, 2)] [2; 2; 1; 1; 5; 6; 8]
     = generate_food [(2, 2); (1, 1); (2, 2)] [2; 2; 1; 1; 5; 6; 8].
Proof.
  assert (H : forall c, In c [(1, 1); (2, 2)] <-> In c [(2, 2); (1, 1); (2, 2)])
    by (intros c; cbn [In]; tauto).
  split; [exact H|].
  apply (generate_food_membership _ _ [2; 2; 1; 1; 5; 6; 8] H).
Defined.

(** X12. [generate_food] returns a cell [c] with the rest [tape'] of the
    tape exactly when the tape is a whole number of rounds that each drew
    an occupied cell, then a round that drew [c] with [c] not occupied,
    then [tape']: the result is the first free cell drawn, the values
    before it are used up two per round, and the values after it are
    handed back untouched. *)
Theorem generate_food_first_free (occupied : list Cell) (tape : list Z)
    (c : Cell) (tape' : list Z) :
  generate_food occupied tape = Some (c, tape')
  <-> exists (pre : list Z) (rx ry : Z),
        tape = pre ++ rx :: ry :: tape'
        /\ Nat.Even (length pre)
        /\ Forall (fun cell => In cell occupied) (draws pre)
        /\ c = (randint 0 (GRID_WIDTH - 1) rx, randint 0 (GRID_HEIGHT - 1) ry)
        /\ ~ In c occupied.
Proof.
  split.
  - revert c tape'.
    induction tape as [| r | rx ry t IH] using tape_pair_ind;
      intros c tape' H; try discriminate.
    cbn [generate_food] in H.
    destruct (cell_in (randint 0 (GRID_WIDTH - 1) rx,
                       randint 0 (GRID_HEIGHT - 1) ry) occupied) eqn:M;
      cbn [negb] in H.
    + destruct (IH _ _ H) as (pre & rx' & ry' & -> & Hev & Hocc & -> & Hfree).
      exists (rx :: ry :: pre), rx', ry'.
      split; [reflexivity|]. split.
      * destruct Hev as [k Hk]. exists (S k). cbn [length]. lia.
      * split; [|split; [reflexivity | exact Hfree]].
        cbn [draws]. constructor; [now apply cell_in_In | exact Hocc].
    + inversion H; subst. exists [], rx, ry.
      split; [reflexivity|]. split; [exists 0%nat; reflexivity|].
      split; [constructor|]. split; [reflexivity|].
      now apply cell_in_not_In.
  - intros (pre & rx & ry & -> & Hev & Hocc & -> & Hfree).
    revert Hev Hocc.
    induction pre as [| r | px py t IH] using tape_pair_ind; intros Hev Hocc.
    + cbn [app generate_food].
      apply cell_in_not_In in Hfree. now rewrite Hfree.
    + destruct Hev as [k Hk]. cbn [length] in Hk. lia.
    + cbn [draws] in Hocc. inversion Hocc as [|? ? Hhd Htl]; subst.
      change ((px :: py :: t) ++ rx :: ry :: tape')
        with (px :: py :: (t ++ rx :: ry :: tape')).
      rewrite generate_food_miss by exact Hhd.
      apply IH; [|exact Htl].
      destruct Hev as [k Hk]. cbn [length] in Hk.
      destruct k as [|k]; [lia|]. exists k. lia.
Qed.

Lemma generate_food_first_free_witness :
  generate_food (Snake.body Snake.reset) [15; 10; 44; 23; 7] = Some ((14, 3), [7])
  /\ exists (pre : list Z) (rx ry : Z),
       [15; 10; 44; 23; 7] = pre ++ rx :: ry :: [7]
       /\ Nat.Even (length pre)
       /\ Forall (fun cell => In cell (Snake.body Snake.reset)) (draws pre)
       /\ (14, 3) = (randint 0 (GRID_WIDTH - 1) rx, randint 0 (GRID_HEIGHT - 1) ry)
       /\ ~ In (14, 3) (Snake.body Snake.reset).
Proof.
  split; [reflexivity|].
  apply (proj1 (generate_food_first_free (Snake.body Snake.reset)
                  [15; 10; 44; 23; 7] (14, 3) [7])).
  reflexivity.
Defined.

(** ** game_over_screen *)

Lemma game_over_events_app (e1 e2 : list Event) :
  game_over_events (e1 ++ e2)
  = match game_over_events e1 with
    | Some b => Some b
    | None => game_over_events e2
    end.
Proof.
  induction e1 as [|e rest IH]; cbn [app game_over_events]; [reflexivity|].
  destruct e as [|k|]; [reflexivity| |exact IH].
  destruct k; try exact IH; reflexivity.
Qed.

Lemma game_over_events_true (events : list Event) :
  game_over_events events = Some true -> In (KEYDOWN K_c) events.
Proof.
  induction events as [|e rest IH]; cbn [game_over_events]; [discriminate|].
  destruct e as [|k|]; [discriminate| |intros H; right; auto].
  destruct k; try (intros H; right; now auto); try discriminate.
  intros _. now left.
Qed.

Lemma game_over_events_false (events : list Event) :
  game_over_events events = Some false ->
  In QUIT events \/ In (KEYDOWN K_q) events.
Proof.
  induction events as [|e rest IH]; cbn [game_over_events]; [discriminate|].
  destruct e as [|k|].
  - intros _. left. now left.
  - destruct k; try discriminate;
      try (intros H; destruct (IH H); [left | right]; now right).
    intros _. right. now left.
  - intros H; destruct (IH H); [left | right]; now right.
Qed.

Lemma game_over_events_none (events : list Event) :
  game_over_events events = None <->
  ~ In QUIT events /\ ~ In (KEYDOWN K_c) events /\ ~ In (KEYDOWN K_q) events.
Proof.
  induction events as [|e rest IH]; cbn [game_over_events In].
  - intuition.
  - destruct e as [|k|]; [| destruct k |]; rewrite ?IH;
      intuition (try discriminate; try congruence).
Qed.

Lemma game_over_screen_used (sc : Z) (polls : list (list Event)) :
  forall b rest,
    game_over_screen sc polls = Some (b, rest) ->
    exists used, polls = used ++ rest /\ used <> []
                 /\ game_over_events (concat used) = Some b.
Proof.
  induction polls as [|events more IH]; intros b rest H;
    cbn [game_over_screen] in H; [discriminate|].
  destruct (game_over_events events) as [b0|] eqn:E.
  - inversion H; subst. exists [events].
    split; [reflexivity|]. split; [discriminate|].
    cbn [concat]. now rewrite app_nil_r.
  - destruct (IH _ _ H) as (used & -> & Hne & Hd).
    exists (events :: used). split; [reflexivity|]. split; [discriminate|].
    cbn [concat]. now rewrite game_over_events_app, E.
Qed.

(** X13. The answer of [game_over_screen] is the first of QUIT, key C and
    key Q in the events read, however they are cut into batches, and the
    score has no part in it: [True] only on a key C, [False] only on a QUIT
    or a key Q; with none of the three it keeps waiting. *)
Theorem game_over_screen_choice :
  (forall (sc : Z) (polls : list (list Event)),
      option_map fst (game_over_screen sc polls)
      = game_over_events (concat polls))
  /\ (forall events, game_over_events events = Some true ->
                     In (KEYDOWN K_c) events)
  /\ (forall events, game_over_events events = Some false ->
                     In QUIT events \/ In (KEYDOWN K_q) events)
  /\ (forall events, game_over_events events = None <->
                     ~ In QUIT events /\ ~ In (KEYDOWN K_c) events
                     /\ ~ In (KEYDOWN K_q) events).
Proof.
  split; [|split; [exact game_over_events_true|
                   split; [exact game_over_events_false
                          |exact game_over_events_none]]].
  intros sc polls. induction polls as [|events more IH];
    cbn [game_over_screen concat]; [reflexivity|].
  rewrite game_over_events_app.
  destruct (game_over_events events); [reflexivity | exact IH].
Qed.

(** ** game_loop and main *)

Lemma rounds_loop_used (polls : list (list Event)) :
  forall g tape b rest tape',
    rounds_loop polls g tape = Returned b rest tape' ->
    exists used, polls = used ++ rest /\ used <> []
                 /\ (b = true -> In (KEYDOWN K_c) (concat used)).
Proof.
  induction polls as [|events more IH]; intros g tape b rest tape' H;
    cbn [rounds_loop] in H; [discriminate|].
  destruct (frame events g tape) as [|g1 t1|g1 t1| |]; try discriminate.
  - inversion H; subst. exists [events].
    split; [reflexivity|]. split; discriminate.
  - destruct (game_over_screen (score g1) more) as [[b0 r0]|] eqn:G;
      [|discriminate].
    assert (Hb : b = b0 /\ rest = r0) by (destruct b0; inversion H; auto).
    destruct Hb as [-> ->].
    destruct (game_over_screen_used _ _ _ _ G) as (used & -> & Hne & Hd).
    exists (events :: used). split; [reflexivity|]. split; [discriminate|].
    intros ->. cbn [concat]. apply in_or_app. right.
    now apply game_over_events_true.
  - destruct (IH _ _ _ _ _ H) as (used & -> & Hne & Hc).
    exists (events :: used). split; [reflexivity|]. split; [discriminate|].
    intros Hb. cbn [concat]. apply in_or_app. right. auto.
Qed.

(** X14. When [game_loop] returns, it has read at least one batch of
    events, and it returns [True] (play again) only when a key C is among
    the events it has read. *)
Theorem game_loop_returns (polls : list (list Event)) (tape : list Z)
    (b : bool) (rest : list (list Event)) (tape' : list Z) :
  game_loop polls tape = Returned b rest tape' ->
  exists used, polls = used ++ rest /\ used <> []
               /\ (b = true -> In (KEYDOWN K_c) (concat used)).
Proof.
  unfold game_loop. destruct (game_start tape) as [[g t]|]; [|discriminate].
  apply rounds_loop_used.
Qed.

Lemma game_loop_returns_witness :
  game_loop [[]; [KEYDOWN K_UP; KEYDOWN K_LEFT]; [OtherEvent];
             [KEYDOWN K_other; KEYDOWN K_c; QUIT]; [KEYDOWN K_DOWN]]
            [3; 4; 5]
  = Returned true [[KEYDOWN K_DOWN]] [5]
  /\ exists used,
       [[]; [KEYDOWN K_UP; KEYDOWN K_LEFT]; [OtherEvent];
        [KEYDOWN K_other; KEYDOWN K_c; QUIT]; [KEYDOWN K_DOWN]]
       = used ++ [[KEYDOWN K_DOWN]]
       /\ used <> []
       /\ (true = true -> In (KEYDOWN K_c) (concat used)).
Proof.
  split; [reflexivity|].
  apply (game_loop_returns _ [3; 4; 5] true [[KEYDOWN K_DOWN]] [5]).
  reflexivity.
Defined.

Lemma game_loop_shorter (polls : list (list Event)) (tape : list Z)
    (b : bool) (rest : list (list Event)) (tape' : list Z) :
  game_loop polls tape = Returned b rest tape' ->
  (length rest < length polls)%nat.
Proof.
  unfold game_loop. destruct (game_start tape) as [[g t]|]; [|discriminate].
  intros H. destruct (rounds_loop_used _ _ _ _ _ _ H) as (used & -> & Hne & _).
  rewrite length_app. destruct used; [congruence|cbn [length]; lia].
Qed.

Lemma main_loop_enough (n : nat) :
  forall m played polls tape,
    (length polls < n)%nat -> (length polls < m)%nat ->
    main_loop n played polls tape = main_loop m played polls tape.
Proof.
  induction n as [|n IH]; intros m played polls tape Hn Hm; [lia|].
  destruct m as [|m]; [lia|]. cbn [main_loop].
  destruct (game_loop polls tape) as [b rest t| | |] eqn:G; try reflexivity.
  destruct b; [|reflexivity].
  apply game_loop_shorter in G. apply IH; lia.
Qed.

Lemma main_loop_sessions (n : nat) :
  forall played polls tape sessions,
    main_loop n played polls tape = Exited sessions ->
    (played < sessions <= played + length polls)%nat.
Proof.
  induction n as [|n IH]; intros played polls tape sessions H;
    cbn [main_loop] in H; [discriminate|].
  destruct (game_loop polls tape) as [b rest t| | |] eqn:G; try discriminate.
  apply game_loop_shorter in G. destruct b.
  - apply IH in H. lia.
  - inversion H; subst. lia.
Qed.

(** X15. The outer loop of [main] needs no more rounds than one more than
    the number of batches: with any larger bound the result is the same.
    When [main] reaches its exit, it has played at least one session and
    at most as many as there were batches of events. *)
Theorem main_loop_fuel (polls : list (list Event)) (tape : list Z) :
  (forall n, (length polls < n)%nat ->
             main_loop n 0 polls tape = main polls tape)
  /\ (forall sessions, main polls tape = Exited sessions ->
                       (1 <= sessions <= length polls)%nat).
Proof.
  split.
  - intros n Hn. unfold main. apply main_loop_enough; lia.
  - intros sessions H. unfold main in H. apply main_loop_sessions in H. lia.
Qed.

(** Two sessions: a reversal, key C, then a QUIT in the second session. *)
Example main_two_sessions :
  main [[KEYDOWN K_UP; KEYDOWN K_LEFT]; [KEYDOWN K_c]; []; [QUIT]; []]
       [3; 4; 8; 9]
  = Exited 2.
Proof. reflexivity. Qed.

(** ** draw_snake *)

Lemma draw_snake_from_calls (i : nat) (snake_body : list Cell) (c : RectCall) :
  In c (draw_snake_from i snake_body) ->
  exists segment,
    In segment snake_body
    /\ rc_w c <= GRID_SIZE /\ rc_h c <= GRID_SIZE
    /\ fst segment * GRID_SIZE <= rc_x c
    /\ rc_x c + rc_w c <= fst segment * GRID_SIZE + GRID_SIZE
    /\ snd segment * GRID_SIZE <= rc_y c
    /\ rc_y c + rc_h c <= snd segment * GRID_SIZE + GRID_SIZE.
Proof.
  revert i. induction snake_body as [|segment rest IH]; intros i;
    cbn [draw_snake_from In]; [intros []|].
  intros [<- | [<- | H]].
  - exists segment. cbn [rc_x rc_y rc_w rc_h]. unfold GRID_SIZE.
    split; [now left|]. lia.
  - exists segment. cbn [rc_x rc_y rc_w rc_h]. unfold GRID_SIZE.
    split; [now left|]. lia.
  - destruct (IH _ H) as (seg & Hin & Hrest). exists seg. split; [now right|].
    exact Hrest.
Qed.

(** X16. Every rectangle that [draw_snake] draws for a body inside the
    grid lies inside the window, and there are two of them per segment. *)
Theorem draw_snake_in_window (snake_body : list Cell) :
  Forall in_grid snake_body ->
  Forall in_window (draw_snake snake_body)
  /\ length (draw_snake snake_body) = (2 * length snake_body)%nat.
Proof.
  intros Hg. split.
  - apply Forall_forall. intros c Hc. unfold draw_snake in Hc.
    destruct (draw_snake_from_calls _ _ _ Hc)
      as (seg & Hin & Hw & Hh & Hx1 & Hx2 & Hy1 & Hy2).
    rewrite Forall_forall in Hg. destruct (Hg _ Hin) as [Gx Gy].
    rewrite GRID_WIDTH_eq in Gx. rewrite GRID_HEIGHT_eq in Gy.
    unfold in_window, WINDOW_WIDTH, WINDOW_HEIGHT.
    unfold GRID_SIZE in *. lia.
  - unfold draw_snake. clear Hg.
    assert (L : forall i, length (draw_snake_from i snake_body)
                          = (2 * length snake_body)%nat).
    { induction snake_body as [|seg rest IH]; intros i; [reflexivity|].
      cbn [draw_snake_from length]. rewrite IH. lia. }
    apply L.
Qed.

Lemma draw_snake_in_window_witness :
  Forall in_grid [(0, 0); (29, 19)]
  /\ Forall in_window (draw_snake [(0, 0); (29, 19)])
  /\ length (draw_snake [(0, 0); (29, 19)]) = (2 * length [(0, 0); (29, 19)])%nat.
Proof.
  assert (H : Forall in_grid [(0, 0); (29, 19)])
    by (repeat constructor; cbn; lia).
  split; [exact H|]. apply (draw_snake_in_window [(0, 0); (29, 19)] H).
Defined.

Lemma draw_snake_from_tail (i : nat) (snake_body : list Cell) :
  draw_snake_from (S i) snake_body
  = flat_map (fun segment =>
                [ mkRectCall GREEN (fst segment * GRID_SIZE + 1)
                             (snd segment * GRID_SIZE + 1)
                             (GRID_SIZE - 2) (GRID_SIZE - 2) 0;
                  mkRectCall BLACK (fst segment * GRID_SIZE)
                             (snd segment * GRID_SIZE) GRID_SIZE GRID_SIZE 1 ])
             snake_body.
Proof.
  revert i. induction snake_body as [|segment rest IH]; intros i;
    [reflexivity|].
  cbn [draw_snake_from flat_map app Nat.eqb]. now rewrite IH.
Qed.

(** X17. [draw_snake] fills the first segment in dark green and every
    other segment in green, each 18 pixels wide inside the black border of
    its 20-pixel cell, in the order of the body. *)
Theorem draw_snake_colors (head : Cell) (rest : list Cell) :
  draw_snake (head :: rest)
  = mkRectCall DARK_GREEN (fst head * 20 + 1) (snd head * 20 + 1) 18 18 0
    :: mkRectCall BLACK (fst head * 20) (snd head * 20) 20 20 1
    :: flat_map (fun segment =>
                   [ mkRectCall GREEN (fst segment * 20 + 1)
                                (snd segment * 20 + 1) 18 18 0;
                     mkRectCall BLACK (fst segment * 20) (snd segment * 20)
                                20 20 1 ])
                rest.
Proof.
  unfold draw_snake. cbn [draw_snake_from Nat.eqb].
  rewrite draw_snake_from_tail. reflexivity.
Qed.

(** X18. The rectangles that [draw_snake] draws for two different cells
    have no pixel in common, at whatever places of the body the cells
    stand. *)
Theorem draw_snake_disjoint (i j : nat) (a b : Cell) (ca cb : RectCall) :
  a <> b ->
  In ca (draw_snake_from i [a]) ->
  In cb (draw_snake_from j [b]) ->
  disjoint_rects ca cb.
Proof.
  intros Hab Ha Hb.
  destruct (draw_snake_from_calls _ _ _ Ha)
    as (sa & [<- | []] & Hwa & Hha & Hxa1 & Hxa2 & Hya1 & Hya2).
  destruct (draw_snake_from_calls _ _ _ Hb)
    as (sb & [<- | []] & Hwb & Hhb & Hxb1 & Hxb2 & Hyb1 & Hyb2).
  destruct a as [ax ay], b as [bx by_]; cbn [fst snd] in *.
  unfold disjoint_rects. unfold GRID_SIZE in *.
  assert (Hne : ax <> bx \/ ay <> by_).
  { destruct (Z.eq_dec ax bx); [right | left]; congruence. }
  destruct Hne as [H | H]; lia.
Qed.

Lemma draw_snake_disjoint_witness :
  (5, 5) <> (5, 6)
  /\ disjoint_rects (mkRectCall DARK_GREEN 101 101 18 18 0)
                    (mkRectCall BLACK 100 120 20 20 1).
Proof.
  split; [discriminate|].
  apply (draw_snake_disjoint 0 3 (5, 5) (5, 6)); [discriminate | |].
  - left. reflexivity.
  - right. left. reflexivity.
Defined.

(** ** The score of a round *)

(** X19. A round that goes on from a state in which a round starts either
    is a meal: the head is on the old food, the score is one higher,
    [grow] is set and the new food is another cell; or is not: the score,
    the food and the random tape are untouched, [grow] is false and the
    head is not on the food. *)
Theorem round_score (events : list Event) (g : Game) (tape : list Z)
    (g' : Game) (tape' : list Z) :
  reachable g ->
  frame events g tape = Continue g' tape' ->
  (score g' = score g + 1
   /\ hd_error (Snake.body (snake g')) = Some (food_pos g)
   /\ Snake.grow (snake g') = true
   /\ food_pos g' <> food_pos g)
  \/ (score g' = score g
      /\ food_pos g' = food_pos g
      /\ tape' = tape
      /\ Snake.grow (snake g') = false
      /\ hd_error (Snake.body (snake g')) <> Some (food_pos g)).
Proof.
  intros R H. pose proof (reachable_Inv g R) as HI.
  destruct (Inv_body g HI) as (head & neck & rest & Hb).
  destruct (frame_continue _ _ _ _ _ _ _ Hb H)
    as (s0 & tlb & _ & _ & _ & _ & Hend).
  destruct Hend as [(Hf & Hgen & Hs & Hsc) | (Hf & Ht & Hs & Hfp & Hsc)].
  - left. rewrite Hs; cbn [Snake.body Snake.grow hd_error].
    split; [exact Hsc|]. split; [now rewrite Hf|]. split; [reflexivity|].
    apply generate_food_sound in Hgen. destruct Hgen as [_ Hfree].
    intros E. apply Hfree. left. now rewrite E.
  - right. rewrite Hs; cbn [Snake.body Snake.grow hd_error].
    split; [exact Hsc|]. split; [exact Hfp|]. split; [exact Ht|].
    split; [reflexivity|]. congruence.
Qed.

Lemma round_score_witness :
  reachable after_two_rounds
  /\ frame [KEYDOWN K_LEFT] after_two_rounds [1; 2]
     = Continue {| snake := Snake.mk [(15, 9); (16, 9); (16, 10); (15, 10)]
                                     LEFT false;
                   food_pos := (3, 4);
                   score := 1 |} [1; 2]
  /\ ((1 = score after_two_rounds + 1
       /\ hd_error [(15, 9); (16, 9); (16, 10); (15, 10)]
          = Some (food_pos after_two_rounds)
       /\ false = true
       /\ (3, 4) <> food_pos after_two_rounds)
      \/ (1 = score after_two_rounds
          /\ (3, 4) = food_pos after_two_rounds
          /\ [1; 2] = [1; 2]
          /\ false = false
          /\ hd_error [(15, 9); (16, 9); (16, 10); (15, 10)]
             <> Some (food_pos after_two_rounds))).
Proof.
  split; [exact after_two_rounds_reachable|]. split; [reflexivity|].
  apply (round_score [KEYDOWN K_LEFT] after_two_rounds [1; 2]
           {| snake := Snake.mk [(15, 9); (16, 9); (16, 10); (15, 10)]
                                LEFT false;
              food_pos := (3, 4);
              score := 1 |} [1; 2]
           after_two_rounds_reachable).
  reflexivity.
Defined.

Lemma game_over_screen_choice_witness :
  game_over_events [OtherEvent; KEYDOWN K_UP; KEYDOWN K_c; QUIT] = Some true
  /\ In (KEYDOWN K_c) [OtherEvent; KEYDOWN K_UP; KEYDOWN K_c; QUIT].
Proof.
  split; [reflexivity|].
  apply (proj1 (proj2 game_over_screen_choice)
           [OtherEvent; KEYDOWN K_UP; KEYDOWN K_c; QUIT]).
  reflexivity.
Defined.

Lemma main_loop_fuel_witness :
  (length [[KEYDOWN K_UP; KEYDOWN K_LEFT]; [KEYDOWN K_c]; []; [QUIT]; []] < 40)%nat
  /\ main_loop 40 0 [[KEYDOWN K_UP; KEYDOWN K_LEFT]; [KEYDOWN K_c]; []; [QUIT]; []]
                [3; 4; 8; 9]
     = main [[KEYDOWN K_UP; KEYDOWN K_LEFT]; [KEYDOWN K_c]; []; [QUIT]; []]
            [3; 4; 8; 9].
Proof.
  split; [cbn; lia|].
  apply (proj1 (main_loop_fuel
                  [[KEYDOWN K_UP; KEYDOWN K_LEFT]; [KEYDOWN K_c]; []; [QUIT]; []]
                  [3; 4; 8; 9]) 40%nat).
  cbn; lia.
Defined.

(** ** A single request between two moves *)

Lemma single_request_keeps_neck (head neck : Cell) (rest : list Cell)
    (c : Direction) (g : bool) (d : Z * Z) :
  head = vadd neck (vec c) ->
  exists s',
    Snake.move (Snake.change_direction d
                  (Snake.mk (head :: neck :: rest) (vec c) g)) = Some s'
    /\ (d = vneg (vec c) -> hd_error (Snake.body s') = Some (vadd head (vec c)))
    /\ hd_error (Snake.body s') <> Some neck.
Proof.
  intros Hh.
  destruct (cell_eqb (vneg d) (vec c)) eqn:E.
  - apply cell_eqb_eq in E. apply vneg_swap in E.
    rewrite change_direction_opposite by exact E.
    eexists. split; [apply move_cons|]. cbn [Snake.body].
    assert (Hne : vadd head (vec c) <> neck).
    { subst head. destruct neck as [x y]. destruct c; unfold vadd; cbn;
        intros F; inversion F; lia. }
    destruct g; cbn [hd_error]; (split; [reflexivity | congruence]).
  - apply cell_eqb_neq in E.
    assert (Hd : d <> vneg (vec c)) by (intros F; apply E; now apply vneg_swap).
    rewrite change_direction_other by exact Hd.
    cbn [Snake.body Snake.grow].
    eexists. split; [apply move_cons|]. cbn [Snake.body].
    assert (Hne : vadd head d <> neck).
    { subst head. intros F. apply Hd.
      destruct neck as [x y], d as [dx dy]. destruct c; unfold vadd, vneg in *;
        cbn in *; inversion F; f_equal; lia. }
    destruct g; cbn [hd_error]; (split; [congruence | congruence]).
Qed.

(** C3. For every snake and every requested tuple [d], one call of
    [change_direction d] leaves the snake as it is when [d] is the
    componentwise negation of the current direction [c], and otherwise
    sets the direction to [d]; it touches neither the body nor [grow].
    Hence, for a single request between two moves, that is, in a state
    where [c] is one of the four headings and is the step that led to the
    head (after [reset], after a [move], and in every state in which a
    round of [game_loop] starts), the [move] that follows the request
    returns and does not put the head on the previous second segment: a
    request for the opposite of [c] is ignored and the head goes on by
    [c], and no other request leads onto that segment either. *)
Theorem change_direction_spec :
  (forall (s : Snake.t) (d : Z * Z),
      (d = vneg (Snake.direction s) -> Snake.change_direction d s = s)
      /\ (d <> vneg (Snake.direction s) ->
          Snake.change_direction d s = Snake.mk (Snake.body s) d (Snake.grow s))
      /\ Snake.body (Snake.change_direction d s) = Snake.body s
      /\ Snake.grow (Snake.change_direction d s) = Snake.grow s)
  /\ (forall (head neck : Cell) (rest : list Cell) (c : Direction) (g : bool)
             (d : Z * Z),
        head = vadd neck (vec c) ->
        exists s',
          Snake.move (Snake.change_direction d
                        (Snake.mk (head :: neck :: rest) (vec c) g)) = Some s'
          /\ (d = vneg (vec c) ->
              hd_error (Snake.body s') = Some (vadd head (vec c)))
          /\ hd_error (Snake.body s') <> Some neck)
  /\ (forall (g : Game) (d : Z * Z),
        reachable g ->
        exists neck s',
          nth_error (Snake.body (snake g)) 1 = Some neck
          /\ Snake.move (Snake.change_direction d (snake g)) = Some s'
          /\ (d = vneg (Snake.direction (snake g)) ->
              Snake.direction s' = Snake.direction (snake g))
          /\ hd_error (Snake.body s') <> Some neck).
Proof.
  split; [|split].
  - intros s d. split; [apply change_direction_opposite|].
    split; [apply change_direction_other|].
    unfold Snake.change_direction.
    destruct (negb _); split; reflexivity.
  - apply single_request_keeps_neck.
  - intros g d R. pose proof (reachable_Inv g R) as HI.
    destruct (Inv_body g HI) as (head & neck & rest & Hb).
    destruct (inv_heading g HI) as [c Hc].
    pose proof (inv_aligned g HI) as Ha.
    destruct (snake g) as [b dir gr];
      cbn [Snake.body Snake.direction Snake.grow] in *.
    subst b dir. unfold aligned in Ha; cbn [Snake.body Snake.direction] in Ha.
    destruct (single_request_keeps_neck head neck rest c gr d Ha)
      as (s' & Hm & _ & Hne).
    exists neck, s'. split; [reflexivity|]. split; [exact Hm|].
    split; [|exact Hne].
    intros Hd. rewrite change_direction_opposite in Hm by exact Hd.
    rewrite move_cons in Hm. inversion Hm. reflexivity.
Qed.

Lemma change_direction_spec_witness :
  reachable after_two_rounds
  /\ exists neck s',
       nth_error (Snake.body (snake after_two_rounds)) 1 = Some neck
       /\ Snake.move (Snake.change_direction DOWN (snake after_two_rounds))
          = Some s'
       /\ (DOWN = vneg (Snake.direction (snake after_two_rounds)) ->
           Snake.direction s' = Snake.direction (snake after_two_rounds))
       /\ hd_error (Snake.body s') <> Some neck.
Proof.
  split; [exact after_two_rounds_reachable|].
  apply (proj2 (proj2 change_direction_spec) after_two_rounds DOWN
           after_two_rounds_reachable).
Defined.

(** The condition on the direction is needed.  [turned_snake] is not a
    state in which a round starts: two requests were accepted since the
    last [move], and its direction does not lead from the second segment
    to the head.  There [move] puts the head on the second segment, with
    or without one more request. *)
Example unaligned_snake_reverses :
  ~ aligned turned_snake
  /\ nth_error (Snake.body turned_snake) 1 = Some (14, 10)
  /\ Snake.move turned_snake
     = Some (Snake.mk [(14, 10); (15, 10); (14, 10)] LEFT false)
  /\ Snake.move (Snake.change_direction RIGHT turned_snake)
     = Snake.move turned_snake.
Proof.
  split; [intros H; discriminate H|]. repeat split.
Qed.
